(** * Agent control loop of the Minecraft bot: state store, decision engine,
      action executor.

    The repository holds two variants of the same program:
    - the core variant (v3.0): busy flag, error counter, history of 100,
      three progression phases, stepwise movement;
    - the broad variant (v2.0, [bot.js]): no busy flag, history of 50, four
      progression phases, one packet per command.

    Modelling conventions.
    - A JavaScript string is a [string]; its code units are taken to be
      bytes and case mapping acts on the letters A-Z only.
    - A JavaScript number is idealised: integers are [Z], coordinates are
      exact rationals ([Q]) extended with [NaN] and [undefined].
    - Asynchronous code is cut at its [await]s: the code between two awaits
      is one atomic transition of a step function; the environment decides
      which timer fires next.
    - Wall-clock readings ([Date]) and [Math.random] draws are inputs. *)

From Stdlib Require Import String Ascii List ZArith QArith Qround Bool Lia.
From Stdlib Require Import DecimalString.
Import ListNotations.

Close Scope Q_scope.
Open Scope string_scope.
Open Scope Z_scope.

(** ** JavaScript strings *)

Module JS.

Definition is_upper (c : ascii) : bool :=
  let n := nat_of_ascii c in (65 <=? n)%nat && (n <=? 90)%nat.

Definition lower_char (c : ascii) : ascii :=
  if is_upper c then ascii_of_nat (nat_of_ascii c + 32) else c.

(** [String.prototype.toLowerCase] *)
Fixpoint toLowerCase (s : string) : string :=
  match s with
  | EmptyString => EmptyString
  | String c r => String (lower_char c) (toLowerCase r)
  end.

(** [String.prototype.includes]: [needle] occurs somewhere in [s]. *)
Fixpoint includes (s needle : string) : bool :=
  String.prefix needle s ||
  match s with
  | EmptyString => false
  | String _ r => includes r needle
  end.

(** The white space of [\s] and of [trim], within the byte range:
    TAB, LF, VT, FF, CR, SPACE and NBSP. *)
Definition is_space (c : ascii) : bool :=
  let n := nat_of_ascii c in
  ((9 <=? n)%nat && (n <=? 13)%nat) || (n =? 32)%nat || (n =? 160)%nat.

Definition LF : ascii := ascii_of_nat 10.
Definition CR : ascii := ascii_of_nat 13.

(** The characters [.] does not match within the byte range: LF and CR. *)
Definition is_line_terminator (c : ascii) : bool :=
  Ascii.eqb c LF || Ascii.eqb c CR.

Fixpoint trimStart (s : string) : string :=
  match s with
  | EmptyString => EmptyString
  | String c r => if is_space c then trimStart r else s
  end.

(** Removes trailing white space: a character is kept when something that
    is kept follows it or when it is not white space. *)
Fixpoint trimEnd (s : string) : string :=
  match s with
  | EmptyString => EmptyString
  | String c r =>
      match trimEnd r with
      | EmptyString => if is_space c then EmptyString else String c EmptyString
      | r' => String c r'
      end
  end.

(** [String.prototype.trim] *)
Definition trim (s : string) : string := trimEnd (trimStart s).

(** [s.split(/\s+/)]: the pieces between maximal runs of white space; a
    leading or trailing run leaves an empty piece, and the empty string
    splits into one empty piece. [cur] is the piece being read (reversed
    accumulation is avoided by appending), [insep] tells that the previous
    character belonged to a separator. *)
Fixpoint split_ws_go (s cur : string) (insep : bool) : list string :=
  match s with
  | EmptyString => [cur]
  | String c r =>
      if is_space c then
        if insep then split_ws_go r cur true
        else cur :: split_ws_go r EmptyString true
      else split_ws_go r (cur ++ String c EmptyString) false
  end.

Definition split_ws (s : string) : list string := split_ws_go s EmptyString false.

(** [s.split(' ')]: the pieces between single spaces. *)
Fixpoint split_space_go (s cur : string) : list string :=
  match s with
  | EmptyString => [cur]
  | String c r =>
      if Ascii.eqb c " "%char then cur :: split_space_go r EmptyString
      else split_space_go r (cur ++ String c EmptyString)
  end.

Definition split_space (s : string) : list string := split_space_go s EmptyString.

(** [parts.join(' ')] *)
Definition join_space (parts : list string) : string := String.concat " " parts.

(** Decimal rendering of an integer, as a template literal prints it. *)
Definition show_Z (z : Z) : string := NilEmpty.string_of_int (Z.to_int z).

(** *** [parseInt] without a radix

    Optional sign, then either [0x]/[0X] and hexadecimal digits or decimal
    digits; reading stops at the first character that is not a digit, and
    no digit at all gives [NaN] ([None]).  The callers pass pieces of a
    split on white space, so there is no leading white space to skip. *)

Definition digit_val (c : ascii) : option Z :=
  let n := nat_of_ascii c in
  if (48 <=? n)%nat && (n <=? 57)%nat then Some (Z.of_nat (n - 48)) else None.

Definition hex_val (c : ascii) : option Z :=
  let n := nat_of_ascii c in
  if (48 <=? n)%nat && (n <=? 57)%nat then Some (Z.of_nat (n - 48))
  else if (97 <=? n)%nat && (n <=? 102)%nat then Some (Z.of_nat (n - 87))
  else if (65 <=? n)%nat && (n <=? 70)%nat then Some (Z.of_nat (n - 55))
  else None.

Fixpoint read_digits (val : ascii -> option Z) (radix : Z) (s : string)
    (acc : option Z) : option Z :=
  match s with
  | EmptyString => acc
  | String c r =>
      match val c with
      | Some d =>
          read_digits val radix r
            (Some (match acc with Some a => a * radix + d | None => d end))
      | None => acc
      end
  end.

Definition parse_unsigned (s : string) : option Z :=
  match s with
  | String "0" (String "x" r) | String "0" (String "X" r) =>
      read_digits hex_val 16 r None
  | _ => read_digits digit_val 10 s None
  end.

Definition parseInt (s : string) : option Z :=
  match s with
  | String "-" r => option_map Z.opp (parse_unsigned r)
  | String "+" r => parse_unsigned r
  | _ => parse_unsigned s
  end.

(** *** Numbers that may be [NaN] or [undefined] *)

Inductive num : Type :=
| Fin (q : Q)
| NaN
| Undefined.

Definition num_add (a b : num) : num :=
  match a, b with
  | Fin p, Fin q => Fin (p + q)%Q
  | _, _ => NaN
  end.

Definition num_mul (a b : num) : num :=
  match a, b with
  | Fin p, Fin q => Fin (p * q)%Q
  | _, _ => NaN
  end.

(** [Math.floor] *)
Definition num_floor (a : num) : num :=
  match a with
  | Fin p => Fin (inject_Z (Qfloor p))
  | _ => NaN
  end.

(** [a === 0] *)
Definition num_is_zero (a : num) : bool :=
  match a with
  | Fin p => Qeq_bool p 0
  | _ => false
  end.


End JS.

(** ** Regular expressions

    The decision engine uses two patterns, both with the [i] flag:
    [/ACTION:\s*(.+?)(?:\n|$)/i] and, for each command verb,
    [new RegExp(`${cmd}\\s+[^\\n]+`, 'i')].  They are built from the atoms
    below and matched by backtracking in the order the language fixes:
    a greedy repetition tries the longest run first, a lazy one the
    shortest. *)

Module Regex.

Inductive atom : Type :=
| Lit (c : ascii)                      (* one character, compared ignoring case *)
| Star (cls : ascii -> bool)           (* cls*, greedy *)
| Plus (cls : ascii -> bool)           (* cls+, greedy *)
| LazyPlusGroup (cls : ascii -> bool)  (* (cls+?), the capturing group *)
| NewlineOrEnd.                        (* (?:\n|$), without the m flag *)

Definition ci_eqb (a b : ascii) : bool :=
  Ascii.eqb (JS.lower_char a) (JS.lower_char b).

Definition whitespace (c : ascii) : bool := JS.is_space c.
Definition dot (c : ascii) : bool := negb (JS.is_line_terminator c).
Definition not_newline (c : ascii) : bool := negb (Ascii.eqb c JS.LF).

(** A successful match: the text matched and the text captured by the
    group (empty when the pattern has no group). *)
Definition found : Type := (string * string)%type.

Definition consume (c : ascii) (r : option found) : option found :=
  match r with
  | Some (m, cap) => Some (String c m, cap)
  | None => None
  end.

(** [cls*] followed by [k]: the longest run first, then shorter ones. *)
Fixpoint star (cls : ascii -> bool) (k : string -> option found) (s : string)
    : option found :=
  match s with
  | String d r =>
      if cls d then
        match star cls k r with
        | Some f => consume d (Some f)
        | None => k s
        end
      else k s
  | EmptyString => k EmptyString
  end.

(** [cls+] followed by [k]. *)
Definition plus (cls : ascii -> bool) (k : string -> option found) (s : string)
    : option found :=
  match s with
  | String d r => if cls d then consume d (star cls k r) else None
  | EmptyString => None
  end.

(** [(cls+?)] followed by [k]: the shortest run first; the run is the
    capture. *)
Fixpoint lazy_plus_group (cls : ascii -> bool) (k : string -> option found)
    (s : string) : option found :=
  match s with
  | String d r =>
      if cls d then
        match k r with
        | Some (m, _) => Some (String d m, String d EmptyString)
        | None =>
            match lazy_plus_group cls k r with
            | Some (m, cap) => Some (String d m, String d cap)
            | None => None
            end
        end
      else None
  | EmptyString => None
  end.

(** [(?:\n|$)] followed by [k]. *)
Definition newline_or_end (k : string -> option found) (s : string) : option found :=
  match s with
  | EmptyString => k EmptyString
  | String d r => if Ascii.eqb d JS.LF then consume d (k r) else None
  end.

(** Matches the pattern at the very start of [s]. *)
Fixpoint match_here (re : list atom) (s : string) {struct re} : option found :=
  match re with
  | [] => Some (EmptyString, EmptyString)
  | Lit c :: re' =>
      match s with
      | String d r => if ci_eqb c d then consume d (match_here re' r) else None
      | EmptyString => None
      end
  | Star cls :: re' => star cls (match_here re') s
  | Plus cls :: re' => plus cls (match_here re') s
  | LazyPlusGroup cls :: re' => lazy_plus_group cls (match_here re') s
  | NewlineOrEnd :: re' => newline_or_end (match_here re') s
  end.

(** [s.match(re)] without the [g] flag: the match at the leftmost
    position that has one. *)
Fixpoint search (re : list atom) (s : string) : option found :=
  match match_here re s with
  | Some f => Some f
  | None =>
      match s with
      | EmptyString => None
      | String _ r => search re r
      end
  end.

Fixpoint lits (s : string) : list atom :=
  match s with
  | EmptyString => []
  | String c r => Lit c :: lits r
  end.

(** [/ACTION:\s*(.+?)(?:\n|$)/i] *)
Definition action_marker : list atom :=
  (lits "ACTION:" ++ [Star whitespace; LazyPlusGroup dot; NewlineOrEnd])%list.

(** [new RegExp(`${cmd}\\s+[^\\n]+`, 'i')] *)
Definition verb_phrase (cmd : string) : list atom :=
  (lits cmd ++ [Plus whitespace; Plus not_newline])%list.

(** [s.split(sep)[0]]: the text before the first occurrence of [sep], the
    whole text when there is none. *)
Fixpoint before_first (sep s : string) : string :=
  if String.prefix sep s then EmptyString
  else match s with
       | EmptyString => EmptyString
       | String c r => String c (before_first sep r)
       end.

End Regex.

(** ** Data shared by the two variants *)

(** The progression phase; the source stores it as one of the strings
    'early', 'mid', 'late', 'endgame'. *)
Inductive GamePhase : Type := early | mid | late | endgame.

Definition GamePhase_eqb (a b : GamePhase) : bool :=
  match a, b with
  | early, early | mid, mid | late, late | endgame, endgame => true
  | _, _ => false
  end.

(** An inventory entry; [name] may be missing on a packet item. *)
Record ItemStack : Type := { name : option string; count : Z }.

Record Position : Type := { x : JS.num; y : JS.num; z : JS.num }.

Record Rotation : Type := { yaw : JS.num; pitch : JS.num }.

(** [inventory.map(i => i.name?.toLowerCase() || '')] *)
Definition item_names (inventory : list ItemStack) : list string :=
  map (fun i => match name i with
                | Some n => JS.toLowerCase n
                | None => EmptyString
                end) inventory.

(** [list.slice(-n)] for a positive [n]: the last [n] elements. *)
Definition slice_last {A : Type} (n : nat) (l : list A) : list A :=
  skipn (length l - n) l.

(** What a command handler resolves to, as far as [execute] reads it.  The
    handlers build [{success, message}]; the functions inherited from
    [Object.prototype] return values on which the two fields read as
    [undefined] ([None]): an empty object, a string, [false]. *)
Record ExecutionResult : Type := {
  success : option bool;
  message : option string
}.

Definition result (ok : bool) (msg : string) : ExecutionResult :=
  {| success := Some ok; message := Some msg |}.

(** Truthiness of [result.success]. *)
Definition succeeded (r : ExecutionResult) : bool :=
  match success r with Some b => b | None => false end.

Record Plan : Type := { action : string; reasoning : string }.

(** ** The core variant (v3.0) *)

Module Core.

(** [config.bot]: the ceiling of the error counter, and the delay in
    milliseconds of the timer every handler is raced against. *)
Definition maxConsecutiveErrors : Z := 5.
Definition actionTimeout : Z := 30000.

(** *** State store *)

(** The history tags: a check mark, a ballot cross and the string 'ERROR'. *)
Inductive Outcome : Type := Tick | Cross | ERROR.

Record HistoryEntry : Type := {
  h_timestamp : Z;
  h_action : string;
  h_result : Outcome;
  h_details : string;
  h_phase : GamePhase;
  h_position : Position
}.

Record BotState : Type := {
  position : Position;
  rotation : Rotation;
  health : Z;
  hunger : Z;
  inventory : list ItemStack;
  currentGoal : string;
  gamePhase : GamePhase;
  actionHistory : list HistoryEntry;
  lastUpdate : Z;
  isDay : bool;
  consecutiveErrors : Z;
  entityId : Z
}.

(** [new BotState()], created at time [now]. *)
Definition new_BotState (now : Z) : BotState :=
  {| position := {| x := JS.Fin 0; y := JS.Fin 0; z := JS.Fin 0 |};
     rotation := {| yaw := JS.Fin 0; pitch := JS.Fin 0 |};
     health := 20;
     hunger := 20;
     inventory := [];
     currentGoal := "survive";
     gamePhase := early;
     actionHistory := [];
     lastUpdate := now;
     isDay := true;
     consecutiveErrors := 0;
     entityId := 0 |}.

Definition set_position (st : BotState) (p : Position) : BotState :=
  {| position := p; rotation := rotation st; health := health st;
     hunger := hunger st; inventory := inventory st;
     currentGoal := currentGoal st; gamePhase := gamePhase st;
     actionHistory := actionHistory st; lastUpdate := lastUpdate st;
     isDay := isDay st; consecutiveErrors := consecutiveErrors st;
     entityId := entityId st |}.

Definition set_rotation (st : BotState) (r : Rotation) : BotState :=
  {| position := position st; rotation := r; health := health st;
     hunger := hunger st; inventory := inventory st;
     currentGoal := currentGoal st; gamePhase := gamePhase st;
     actionHistory := actionHistory st; lastUpdate := lastUpdate st;
     isDay := isDay st; consecutiveErrors := consecutiveErrors st;
     entityId := entityId st |}.

Definition set_health (st : BotState) (h : Z) : BotState :=
  {| position := position st; rotation := rotation st; health := h;
     hunger := hunger st; inventory := inventory st;
     currentGoal := currentGoal st; gamePhase := gamePhase st;
     actionHistory := actionHistory st; lastUpdate := lastUpdate st;
     isDay := isDay st; consecutiveErrors := consecutiveErrors st;
     entityId := entityId st |}.

Definition set_inventory (st : BotState) (i : list ItemStack) : BotState :=
  {| position := position st; rotation := rotation st; health := health st;
     hunger := hunger st; inventory := i;
     currentGoal := currentGoal st; gamePhase := gamePhase st;
     actionHistory := actionHistory st; lastUpdate := lastUpdate st;
     isDay := isDay st; consecutiveErrors := consecutiveErrors st;
     entityId := entityId st |}.

Definition set_gamePhase (st : BotState) (g : GamePhase) : BotState :=
  {| position := position st; rotation := rotation st; health := health st;
     hunger := hunger st; inventory := inventory st;
     currentGoal := currentGoal st; gamePhase := g;
     actionHistory := actionHistory st; lastUpdate := lastUpdate st;
     isDay := isDay st; consecutiveErrors := consecutiveErrors st;
     entityId := entityId st |}.

Definition set_actionHistory (st : BotState) (h : list HistoryEntry) : BotState :=
  {| position := position st; rotation := rotation st; health := health st;
     hunger := hunger st; inventory := inventory st;
     currentGoal := currentGoal st; gamePhase := gamePhase st;
     actionHistory := h; lastUpdate := lastUpdate st;
     isDay := isDay st; consecutiveErrors := consecutiveErrors st;
     entityId := entityId st |}.

Definition set_lastUpdate (st : BotState) (t : Z) : BotState :=
  {| position := position st; rotation := rotation st; health := health st;
     hunger := hunger st; inventory := inventory st;
     currentGoal := currentGoal st; gamePhase := gamePhase st;
     actionHistory := actionHistory st; lastUpdate := t;
     isDay := isDay st; consecutiveErrors := consecutiveErrors st;
     entityId := entityId st |}.

Definition set_consecutiveErrors (st : BotState) (n : Z) : BotState :=
  {| position := position st; rotation := rotation st; health := health st;
     hunger := hunger st; inventory := inventory st;
     currentGoal := currentGoal st; gamePhase := gamePhase st;
     actionHistory := actionHistory st; lastUpdate := lastUpdate st;
     isDay := isDay st; consecutiveErrors := n;
     entityId := entityId st |}.

Definition set_entityId (st : BotState) (e : Z) : BotState :=
  {| position := position st; rotation := rotation st; health := health st;
     hunger := hunger st; inventory := inventory st;
     currentGoal := currentGoal st; gamePhase := gamePhase st;
     actionHistory := actionHistory st; lastUpdate := lastUpdate st;
     isDay := isDay st; consecutiveErrors := consecutiveErrors st;
     entityId := e |}.

(** The argument of [update]: the fields the event handlers assign; a
    field that is absent from the object literal is [None]. *)
Record Partial : Type := {
  p_position : option Position;
  p_rotation : option Rotation;
  p_health : option Z;
  p_inventory : option (list ItemStack);
  p_gamePhase : option GamePhase
}.

Definition assign {A : Type} (field : option A) (old : A) : A :=
  match field with Some v => v | None => old end.

(** [update(data)]: [Object.assign(this, data)], then the time stamp.  No
    listener of 'stateChanged' is registered, so the emit has no effect. *)
Definition update (st : BotState) (data : Partial) (now : Z) : BotState :=
  {| position := assign (p_position data) (position st);
     rotation := assign (p_rotation data) (rotation st);
     health := assign (p_health data) (health st);
     hunger := hunger st;
     inventory := assign (p_inventory data) (inventory st);
     currentGoal := currentGoal st;
     gamePhase := assign (p_gamePhase data) (gamePhase st);
     actionHistory := actionHistory st;
     lastUpdate := now;
     isDay := isDay st;
     consecutiveErrors := consecutiveErrors st;
     entityId := entityId st |}.

Definition history_capacity : nat := 100.

(** [addToHistory(action, result, details)] at time [now]. *)
Definition addToHistory (st : BotState) (a : string) (r : Outcome)
    (details : string) (now : Z) : BotState :=
  let pushed :=
    (actionHistory st ++
     [ {| h_timestamp := now; h_action := a; h_result := r;
          h_details := details; h_phase := gamePhase st;
          h_position := position st |} ])%list in
  set_actionHistory st
    (if (history_capacity <? length pushed)%nat
     then slice_last history_capacity pushed
     else pushed).

(** The arguments of one call of [addToHistory] and the clock. *)
Definition HistoryCall : Type := (string * Outcome * string * Z)%type.

(** The entry a call appends while the store is [st]. *)
Definition entry_of (st : BotState) (c : HistoryCall) : HistoryEntry :=
  let '(a, r, d, now) := c in
  {| h_timestamp := now; h_action := a; h_result := r; h_details := d;
     h_phase := gamePhase st; h_position := position st |}.

Definition record (st : BotState) (c : HistoryCall) : BotState :=
  let '(a, r, d, now) := c in addToHistory st a r d now.

(** A sequence of calls of [addToHistory]. *)
Definition record_all (st : BotState) (calls : list HistoryCall) : BotState :=
  fold_left record calls st.

(** [determineGamePhase()] *)
Definition determineGamePhase (st : BotState) : GamePhase :=
  let items := item_names (inventory st) in
  if existsb (fun i => JS.includes i "diamond" || JS.includes i "netherite") items
  then late
  else if existsb (fun i => JS.includes i "iron") items
  then mid
  else early.

(** The 'inventory_content' handler.  The object literal is built before
    [update] runs, so [determineGamePhase()] reads the inventory that is
    still stored. *)
Definition on_inventory_content (st : BotState) (items : option (list ItemStack))
    (now : Z) : BotState :=
  update st
    {| p_position := None; p_rotation := None; p_health := None;
       p_inventory := Some (match items with Some l => l | None => [] end);
       p_gamePhase := Some (determineGamePhase st) |}
    now.

(** The 'set_health' handler; [None] is a packet without the field. *)
Definition on_set_health (st : BotState) (h : option Z) (now : Z) : BotState :=
  match h with
  | Some v =>
      update st
        {| p_position := None; p_rotation := None; p_health := Some v;
           p_inventory := None; p_gamePhase := None |} now
  | None => st
  end.

(** The 'update_attributes' handler; an attribute is its name and its
    current value, [None] is a packet without attributes. *)
Definition on_update_attributes (st : BotState) (runtime_entity_id : Z)
    (attributes : option (list (string * Z))) (now : Z) : BotState :=
  match attributes with
  | Some l =>
      if runtime_entity_id =? entityId st then
        match find (fun a => String.eqb (fst a) "minecraft:health") l with
        | Some healthAttr =>
            update st
              {| p_position := None; p_rotation := None;
                 p_health := Some (snd healthAttr);
                 p_inventory := None; p_gamePhase := None |} now
        | None => st
        end
      else st
  | None => st
  end.

(** The 'move_player' handler. *)
Definition on_move_player (st : BotState) (pos : option Position)
    (runtime_id : Z) (rot : option Rotation) (now : Z) : BotState :=
  match pos with
  | Some p =>
      if runtime_id =? entityId st then
        update st
          {| p_position := Some p;
             p_rotation := Some (match rot with Some r => r | None => rotation st end);
             p_health := None; p_inventory := None; p_gamePhase := None |} now
      else st
  | None => st
  end.

(** The 'start_game' handler; an entity id of zero is falsy. *)
Definition on_start_game (st : BotState) (runtime_entity_id : Z)
    (player_position : option Position) (now : Z) : BotState :=
  let st1 := if runtime_entity_id =? 0 then st
             else set_entityId st runtime_entity_id in
  match player_position with
  | Some p =>
      update st1
        {| p_position := Some p;
           p_rotation := Some {| yaw := JS.Fin 0; pitch := JS.Fin 0 |};
           p_health := None; p_inventory := None; p_gamePhase := None |} now
  | None => st1
  end.

(** [getContextForAI()].  The strings of the source (the position with one
    decimal, 'n/20', 'Day'/'Night', the rendered history lines) are kept as
    the values they are rendered from. *)
Record Context : Type := {
  c_position : Position;
  c_health : Z;
  c_hunger : Z;
  c_inventoryCount : nat;
  c_gamePhase : GamePhase;
  c_currentGoal : string;
  c_isDay : bool;
  c_recentActions : list (string * Outcome * string);
  c_hasItems : bool;
  c_canSurvive : bool
}.

Definition getContextForAI (st : BotState) : Context :=
  let recent := slice_last 5 (actionHistory st) in
  {| c_position := position st;
     c_health := health st;
     c_hunger := hunger st;
     c_inventoryCount := length (inventory st);
     c_gamePhase := gamePhase st;
     c_currentGoal := currentGoal st;
     c_isDay := isDay st;
     c_recentActions := map (fun a => (h_action a, h_result a, h_details a)) recent;
     c_hasItems := (0 <? length (inventory st))%nat;
     c_canSurvive := (5 <? health st) && (5 <? hunger st) |}.

(** *** Decision engine *)

(** What the reasoning service does with one request: the transport fails,
    or it answers with a status code and possibly a text. *)
Inductive ServiceReply : Type :=
| Unreachable
| Answer (statusCode : Z) (text : option string).

(** [callGemini(prompt)]: the text of the answer, or [None] when the call
    throws (transport error, status of 400 or more, missing or empty
    text).  The message of the error is only logged. *)
Definition callGemini (r : ServiceReply) : option string :=
  match r with
  | Unreachable => None
  | Answer statusCode text =>
      if 400 <=? statusCode then None
      else match text with
           | Some EmptyString | None => None
           | Some t => Some t
           end
  end.

Definition commands : list string :=
  ["move"; "mine"; "explore"; "attack"; "chat"; "wait"; "jumpmove"].

(** The loop over [commands] of [parseAction]: the first verb of the list
    whose pattern matches gives the action. *)
Fixpoint scan_commands (cmds : list string) (response : string) : option string :=
  match cmds with
  | [] => None
  | cmd :: more =>
      match Regex.search (Regex.verb_phrase cmd) response with
      | Some (m, _) => Some (JS.trim m)
      | None => scan_commands more response
      end
  end.

(** [parseAction(response)] *)
Definition parseAction (response : string) : Plan :=
  match Regex.search Regex.action_marker response with
  | Some (_, actionStr) =>
      {| action := JS.trim actionStr;
         reasoning := JS.trim (Regex.before_first "ACTION:" response) |}
  | None =>
      match scan_commands commands response with
      | Some a => {| action := a; reasoning := "Extracted from response" |}
      | None =>
          {| action := "explore";
             reasoning := "Could not parse action, defaulting to explore" |}
      end
  end.

(** [safeFallback(state)] *)
Definition safeFallback (st : BotState) : Plan :=
  if health st <? 10 then
    {| action := "wait"; reasoning := "Low health, being cautious" |}
  else if GamePhase_eqb (gamePhase st) early then
    {| action := "mine wood"; reasoning := "Need basic resources" |}
  else {| action := "explore"; reasoning := "Safe exploration" |}.

Record Trace : Type := {
  t_context : Context;
  t_response : string;
  t_action : Plan;
  t_timestamp : Z
}.

Record GeminiController : Type := { conversationHistory : list Trace }.

(** One decision cycle: what [think] returns, the controller and the state
    it leaves, and the requests it sent to the reasoning service. *)
Record Thought : Type := {
  th_plan : Plan;
  th_controller : GeminiController;
  th_state : BotState;
  th_requests : list Context
}.

(** [think(state)]; [reply] is what the service does with the request and
    [now] the clock when the answer is recorded.  The request is sent
    before anything else is looked at. *)
Definition think (ai : GeminiController) (st : BotState) (reply : ServiceReply)
    (now : Z) : Thought :=
  let context := getContextForAI st in
  match callGemini reply with
  | Some response =>
      let a := parseAction response in
      let pushed :=
        (conversationHistory ai ++
         [ {| t_context := context; t_response := response;
              t_action := a; t_timestamp := now |} ])%list in
      {| th_plan := a;
         th_controller :=
           {| conversationHistory :=
                if (20 <? length pushed)%nat then slice_last 20 pushed else pushed |};
         th_state := st;
         th_requests := [context] |}
  | None =>
      let st' := set_consecutiveErrors st (consecutiveErrors st + 1) in
      {| th_plan :=
           if maxConsecutiveErrors <? consecutiveErrors st'
           then safeFallback st'
           else {| action := "wait"; reasoning := "Error recovery" |};
         th_controller := ai;
         th_state := st';
         th_requests := [context] |}
  end.

(** *** Action executor *)

(** What [client.write] sends; the fields the source fills with constants
    ([mode], [ridden_runtime_id], [tick], [action], [face], [action_id],
    the chat envelope) are left out. *)
Inductive Packet : Type :=
| move_player (runtime_id : Z) (pos : Position) (yaw pitch head_yaw : JS.num)
    (on_ground : bool)
| player_action (runtime_entity_id : Z) (pos : Position)
| animate (runtime_entity_id : Z)
| text (message : string).

(** The state store together with everything sent to the session so far,
    oldest first. *)
Record World : Type := { bot : BotState; wire : list Packet }.

Definition write (p : Packet) (w : World) : World :=
  {| bot := bot w; wire := (wire w ++ [p])%list |}.

Definition on_bot (f : BotState -> BotState) (w : World) : World :=
  {| bot := f (bot w); wire := wire w |}.

(** The code of a handler between two awaits, and the sleep that ends it. *)
Record Segment : Type := { run : World -> World; delay : Z }.

(** A handler once its arguments are known: the segments it runs in order
    and the value it resolves to after the last sleep. *)
Record Handler : Type := { segments : list Segment; outcome : ExecutionResult }.

(** The names every object literal inherits from [Object.prototype]. *)
Definition inherited_keys : list string :=
  ["constructor"; "__defineGetter__"; "__defineSetter__"; "hasOwnProperty";
   "__lookupGetter__"; "__lookupSetter__"; "isPrototypeOf";
   "propertyIsEnumerable"; "toString"; "valueOf"; "__proto__";
   "toLocaleString"].

Definition is_inherited (k : string) : bool :=
  existsb (String.eqb k) inherited_keys.

Record Dir : Type := { dx : JS.num; dz : JS.num; dyaw : JS.num }.

(** [directions[direction]]; a missing argument reads the key 'undefined'.
    An inherited name gives an object without [x], [z] and [yaw]. *)
Definition directions (direction : option string) : option Dir :=
  match direction with
  | None => None
  | Some k =>
      if String.eqb k "north" then
        Some {| dx := JS.Fin 0; dz := JS.Fin (-1); dyaw := JS.Fin 180 |}
      else if String.eqb k "south" then
        Some {| dx := JS.Fin 0; dz := JS.Fin 1; dyaw := JS.Fin 0 |}
      else if String.eqb k "east" then
        Some {| dx := JS.Fin 1; dz := JS.Fin 0; dyaw := JS.Fin 270 |}
      else if String.eqb k "west" then
        Some {| dx := JS.Fin (-1); dz := JS.Fin 0; dyaw := JS.Fin 90 |}
      else if is_inherited k then
        Some {| dx := JS.Undefined; dz := JS.Undefined; dyaw := JS.Undefined |}
      else None
  end.

(** How a template literal prints the direction argument. *)
Definition show_arg (a : option string) : string :=
  match a with Some k => k | None => "undefined" end.

Definition max_steps : Z := 40.

(** [blocks / steps]; zero by zero is [NaN]. *)
Definition stepSize_of (blocks steps : Z) : JS.num :=
  if steps =? 0 then JS.NaN else JS.Fin (inject_Z blocks / inject_Z steps)%Q.

(** One turn of the loop of [move]. *)
Definition move_step (dir : Dir) (stepSize : JS.num) : Segment :=
  {| run := fun w =>
       let st := bot w in
       let newPos :=
         {| x := JS.num_add (x (position st)) (JS.num_mul (dx dir) stepSize);
            y := y (position st);
            z := JS.num_add (z (position st)) (JS.num_mul (dz dir) stepSize) |} in
       let w1 := write (move_player (entityId st) newPos (dyaw dir) (JS.Fin 0)
                          (dyaw dir) true) w in
       on_bot (fun st => set_rotation (set_position st newPos)
                           {| yaw := dyaw dir; pitch := JS.Fin 0 |}) w1;
     delay := 50 |}.

(** [move(direction, blocks)] *)
Definition move (direction : option string) (blocks : Z) : Handler :=
  match directions direction with
  | None =>
      {| segments := [];
         outcome := result false ("Invalid direction: " ++ show_arg direction) |}
  | Some dir =>
      let steps := Z.min (blocks * 4) max_steps in
      let stepSize := stepSize_of blocks steps in
      {| segments := repeat (move_step dir stepSize) (Z.to_nat steps);
         outcome := result true ("Moved " ++ show_arg direction ++ " "
                                 ++ JS.show_Z blocks ++ " blocks") |}
  end.

Definition half : JS.num := JS.Fin (1 # 2).

(** The two halves of one turn of the loop of [jumpMove]. *)
Definition jump_step (dir : Dir) (up : bool) : Segment :=
  {| run := fun w =>
       let st := bot w in
       let p :=
         {| x := JS.num_add (x (position st)) (JS.num_mul (dx dir) half);
            y := JS.num_add (y (position st)) (JS.Fin (if up then 1 else (-1)));
            z := JS.num_add (z (position st)) (JS.num_mul (dz dir) half) |} in
       let w1 := write (move_player (entityId st) p (dyaw dir) (JS.Fin 0)
                          (dyaw dir) (negb up)) w in
       on_bot (fun st => set_position st p) w1;
     delay := 150 |}.

(** [jumpMove(direction, blocks)] *)
Definition jumpMove (direction : option string) (blocks : Z) : Handler :=
  match directions direction with
  | None =>
      {| segments := [];
         outcome := result false ("Invalid direction: " ++ show_arg direction) |}
  | Some dir =>
      {| segments :=
           concat (repeat [jump_step dir true; jump_step dir false] (Z.to_nat blocks));
         outcome := result true ("Jump-moved " ++ show_arg direction ++ " "
                                 ++ JS.show_Z blocks ++ " blocks") |}
  end.

(** [mine(target)] *)
Definition mine (target : string) : Handler :=
  let lookDown := JS.includes target "down" || JS.includes target "stone"
                  || JS.includes target "dirt" in
  let pitch' := JS.Fin (if lookDown then 90 else 0) in
  let orient :=
    {| run := fun w =>
         let w1 := on_bot (fun st => set_rotation st
                             {| yaw := yaw (rotation st); pitch := pitch' |}) w in
         let st := bot w1 in
         write (move_player (entityId st) (position st) (yaw (rotation st)) pitch'
                  (yaw (rotation st)) true) w1;
       delay := 300 |} in
  let start_break :=
    {| run := fun w =>
         let st := bot w in
         let fx := JS.num_floor (x (position st)) in
         let fy := JS.num_floor (y (position st)) in
         let fz := JS.num_floor (z (position st)) in
         let blockPos :=
           if lookDown then
             {| x := fx; y := JS.num_add fy (JS.Fin (-1)); z := fz |}
           else
             {| x := fx; y := fy;
                z := JS.num_add fz
                       (JS.Fin (if JS.num_is_zero (yaw (rotation st)) then 1 else (-1))) |} in
         write (player_action (entityId st) blockPos) w;
       delay := 500 |} in
  let swing :=
    {| run := fun w => write (animate (entityId (bot w))) w; delay := 400 |} in
  {| segments := orient :: start_break :: repeat swing 5;
     outcome := result true ("Mining " ++ target) |}.

(** [attack()] *)
Definition attack : Handler :=
  {| segments :=
       [ {| run := fun w => write (animate (entityId (bot w))) w; delay := 500 |} ];
     outcome := result true "Attacking nearby target" |}.

(** [chat(message)]; an empty message is sent as 'Hello!'. *)
Definition chat (msg : string) : Handler :=
  {| segments :=
       [ {| run := write (text (if String.eqb msg EmptyString then "Hello!" else msg));
            delay := 500 |} ];
     outcome := result true ("Sent: " ++ msg) |}.

(** [wait()] *)
Definition wait : Handler :=
  {| segments := [ {| run := fun w => w; delay := 2000 |} ];
     outcome := result true "Waiting and observing" |}.

(** [explore()]; [r1] and [r2] are the two draws of [Math.random], in
    [0, 1). *)
Definition explore (r1 r2 : Q) : Handler :=
  let randomDir :=
    nth_error ["north"; "south"; "east"; "west"]
      (Z.to_nat (Qfloor (r1 * 4)%Q)) in
  let randomDir := if Qfloor (r1 * 4)%Q <? 0 then None else randomDir in
  let distance := 3 + Qfloor (r2 * 7)%Q in
  move randomDir distance.

(** What the call [actionFn()] does. *)
Inductive Called : Type :=
| Throws (msg : string)         (* the value is not callable, or the call throws *)
| Returns (r : ExecutionResult) (* an inherited function that returns at once *)
| Runs (h : Handler).           (* one of the seven handlers *)

(** [parseInt(args[1]) || 5] *)
Definition blocks_arg (args : list string) : Z :=
  match nth_error args 1 with
  | None => 5
  | Some a =>
      match JS.parseInt a with
      | None => 5
      | Some n => if n =? 0 then 5 else n
      end
  end.

Definition no_fields : ExecutionResult := {| success := None; message := None |}.

(** The table [actions] of [performAction], looked up with a lower-cased
    [command], together with the call [actionFn()]; [None] is a key the
    table does not have.  The object literal inherits from
    [Object.prototype]: 'constructor' builds an empty object, '__proto__'
    is an object and calling it throws.  The other inherited names carry an
    upper-case letter, which a lower-cased token cannot have; they are
    listed with what their call does. *)
Definition actions (command : string) (args : list string) (r1 r2 : Q)
    : option Called :=
  if String.eqb command "move" then
    Some (Runs (move (nth_error args 0) (blocks_arg args)))
  else if String.eqb command "jumpmove" then
    Some (Runs (jumpMove (nth_error args 0) (blocks_arg args)))
  else if String.eqb command "mine" then Some (Runs (mine (JS.join_space args)))
  else if String.eqb command "explore" then Some (Runs (explore r1 r2))
  else if String.eqb command "attack" then Some (Runs attack)
  else if String.eqb command "chat" then Some (Runs (chat (JS.join_space args)))
  else if String.eqb command "wait" then Some (Runs wait)
  else if String.eqb command "constructor" then Some (Returns no_fields)
  else if String.eqb command "toString" || String.eqb command "isPrototypeOf"
  then Some (Returns no_fields)
  else if String.eqb command "__proto__" then
    Some (Throws "actionFn is not a function")
  else if is_inherited command then
    (* a [TypeError]; its wording depends on the function *)
    Some (Throws "Cannot convert undefined or null to object")
  else None.

(** The leading token of the action string and the tokens after it. *)
Definition tokens (actionString : string) : string * list string :=
  match JS.split_ws (JS.trim (JS.toLowerCase actionString)) with
  | [] => (EmptyString, [])
  | command :: args => (command, args)
  end.

(** [performAction(actionString)] up to the race against the timeout: an
    unknown token resolves at once, without a call. *)
Definition performAction (actionString : string) (r1 r2 : Q) : Called :=
  let (command, args) := tokens actionString in
  match actions command args r1 r2 with
  | None => Returns (result false ("Unknown command: " ++ command))
  | Some called => called
  end.

(** The set of handlers of the table. *)
Definition handler_names : list string :=
  ["move"; "jumpmove"; "mine"; "explore"; "attack"; "chat"; "wait"].

(** A call of [execute] that waits for its handler. *)
Record InFlight : Type := {
  if_plan : Plan;
  if_rest : list Segment;
  if_outcome : ExecutionResult
}.

(** The executor, the world it acts on, and the bookkeeping of the model:
    [inflight] is the call that is suspended in [await performAction],
    [abandoned] the handlers whose wait a timeout gave up (they still run),
    [invoked] counts the calls of handlers of the table. *)
Record Sys : Type := {
  world : World;
  isBusy : bool;
  inflight : option InFlight;
  abandoned : list (list Segment);
  invoked : nat
}.

(** [new ActionExecutor(client, state)] on a fresh world. *)
Definition new_Sys (now : Z) : Sys :=
  {| world := {| bot := new_BotState now; wire := [] |};
     isBusy := false; inflight := None; abandoned := []; invoked := 0 |}.

(** What the environment does next.  Time is not measured: the timer of
    [actionTimeout] milliseconds may fire whenever a call is in flight, and
    the session, which the model takes as a log that accepts every packet,
    may fail under a handler in flight at any of its resumptions. *)
Inductive Event : Type :=
| Execute (plan : Plan) (r1 r2 : Q)  (* somebody calls [execute(plan)] *)
| SleepOver                          (* the sleep of the handler in flight ends *)
| TimeoutFires                       (* the timer raced against it fires first *)
| HandlerThrows (msg : string)       (* the handler in flight resumes and throws *)
| AbandonedSleepOver (i : nat)       (* the sleep of an abandoned handler ends *)
| InventoryContent (items : option (list ItemStack))
| SetHealth (h : option Z)
| UpdateAttributes (runtime_entity_id : Z) (attributes : option (list (string * Z)))
| MovePlayer (pos : option Position) (runtime_id : Z) (rot : option Rotation)
| StartGame (runtime_entity_id : Z) (player_position : option Position).

(** The end of the [try] block of [execute] and its [finally]. *)
Definition finish_ok (s : Sys) (p : Plan) (r : ExecutionResult) (now : Z) : Sys :=
  let st := set_consecutiveErrors (bot (world s)) 0 in
  let st := addToHistory st (action p) (if succeeded r then Tick else Cross)
              (match message r with Some m => m | None => EmptyString end) now in
  {| world := {| bot := st; wire := wire (world s) |};
     isBusy := false; inflight := None;
     abandoned := abandoned s; invoked := invoked s |}.

(** The [catch] block of [execute] and its [finally]. *)
Definition finish_error (s : Sys) (p : Plan) (msg : string) (now : Z) : Sys :=
  let st := addToHistory (bot (world s)) (action p) ERROR msg now in
  {| world := {| bot := st; wire := wire (world s) |};
     isBusy := false; inflight := None;
     abandoned := abandoned s; invoked := invoked s |}.

(** The three [return] statements of [execute]: the busy guard, the end of
    the [try] block, the [catch] block. *)
Inductive Return : Type :=
| Busy
| Completed (r : ExecutionResult)
| Caught (msg : string).

(** The value the caller receives. *)
Definition returned (r : Return) : ExecutionResult :=
  match r with
  | Busy => result false "Busy"
  | Completed r => r
  | Caught msg => result false msg
  end.

(** [execute(plan)] from its call to its first suspension, or to its end
    when nothing is awaited.  The second component tells how the call
    returns when it ends here. *)
Definition execute (s : Sys) (p : Plan) (r1 r2 : Q) (now : Z)
    : Sys * option Return :=
  if isBusy s then (s, Some Busy)
  else
    match performAction (action p) r1 r2 with
    | Returns r => (finish_ok s p r now, Some (Completed r))
    | Throws msg => (finish_error s p msg now, Some (Caught msg))
    | Runs h =>
        match segments h with
        | [] =>
            let s1 := {| world := world s; isBusy := true; inflight := None;
                         abandoned := abandoned s; invoked := S (invoked s) |} in
            (finish_ok s1 p (outcome h) now, Some (Completed (outcome h)))
        | first :: rest =>
            ({| world := run first (world s);
                isBusy := true;
                inflight := Some {| if_plan := p; if_rest := rest;
                                    if_outcome := outcome h |};
                abandoned := abandoned s;
                invoked := S (invoked s) |}, None)
        end
    end.

Definition set_world (s : Sys) (w : World) : Sys :=
  {| world := w; isBusy := isBusy s; inflight := inflight s;
     abandoned := abandoned s; invoked := invoked s |}.

(** Replaces the [i]-th list by its tail after running its head. *)
Fixpoint resume_abandoned (i : nat) (l : list (list Segment)) (w : World)
    : list (list Segment) * World :=
  match l, i with
  | [], _ => ([], w)
  | [] :: more, O => (more, w)
  | (seg :: segs) :: more, O => (segs :: more, run seg w)
  | h :: more, S j =>
      let (more', w') := resume_abandoned j more w in (h :: more', w')
  end.

(** One transition of the executor and the state store. *)
Definition step (s : Sys) (e : Event) (now : Z) : Sys * option Return :=
  match e with
  | Execute p r1 r2 => execute s p r1 r2 now
  | SleepOver =>
      match inflight s with
      | None => (s, None)
      | Some f =>
          match if_rest f with
          | [] => (finish_ok s (if_plan f) (if_outcome f) now,
                   Some (Completed (if_outcome f)))
          | seg :: rest =>
              ({| world := run seg (world s);
                  isBusy := isBusy s;
                  inflight := Some {| if_plan := if_plan f; if_rest := rest;
                                      if_outcome := if_outcome f |};
                  abandoned := abandoned s;
                  invoked := invoked s |}, None)
          end
      end
  | TimeoutFires =>
      match inflight s with
      | None => (s, None)
      | Some f =>
          let s1 := finish_error s (if_plan f) "Action timeout" now in
          ({| world := world s1; isBusy := isBusy s1; inflight := None;
              abandoned := (abandoned s ++ [if_rest f])%list;
              invoked := invoked s |},
           Some (Caught "Action timeout"))
      end
  | HandlerThrows msg =>
      match inflight s with
      | None => (s, None)
      | Some f => (finish_error s (if_plan f) msg now, Some (Caught msg))
      end
  | AbandonedSleepOver i =>
      let (l, w) := resume_abandoned i (abandoned s) (world s) in
      ({| world := w; isBusy := isBusy s; inflight := inflight s;
          abandoned := l; invoked := invoked s |}, None)
  | InventoryContent items =>
      (set_world s (on_bot (fun st => on_inventory_content st items now) (world s)), None)
  | SetHealth h =>
      (set_world s (on_bot (fun st => on_set_health st h now) (world s)), None)
  | UpdateAttributes id attributes =>
      (set_world s (on_bot (fun st => on_update_attributes st id attributes now)
                      (world s)), None)
  | MovePlayer pos id rot =>
      (set_world s (on_bot (fun st => on_move_player st pos id rot now) (world s)), None)
  | StartGame id pos =>
      (set_world s (on_bot (fun st => on_start_game st id pos now) (world s)), None)
  end.

(** A run: the events the environment produces, each with the clock. *)
Fixpoint steps (s : Sys) (es : list (Event * Z)) : Sys :=
  match es with
  | [] => s
  | (e, now) :: more => steps (fst (step s e now)) more
  end.

End Core.

(** ** The broad variant (v2.0, [bot.js]) *)

Module Broad.

(** *** State store *)

(** The history tags: the strings 'success', 'failed' and 'error'. *)
Inductive Outcome : Type := success_ | failed | error.

Record HistoryEntry : Type := {
  h_timestamp : Z;
  h_action : string;
  h_result : Outcome;
  h_phase : GamePhase
}.

Record BotState : Type := {
  position : Position;
  rotation : Rotation;
  health : Z;
  hunger : Z;
  inventory : list ItemStack;
  currentGoal : option string;
  gamePhase : GamePhase;
  actionHistory : list HistoryEntry;
  lastUpdate : Z
}.

(** [new BotState()], created at time [now]. *)
Definition new_BotState (now : Z) : BotState :=
  {| position := {| x := JS.Fin 0; y := JS.Fin 0; z := JS.Fin 0 |};
     rotation := {| yaw := JS.Fin 0; pitch := JS.Fin 0 |};
     health := 20;
     hunger := 20;
     inventory := [];
     currentGoal := None;
     gamePhase := early;
     actionHistory := [];
     lastUpdate := now |}.

Definition set_actionHistory (st : BotState) (h : list HistoryEntry) : BotState :=
  {| position := position st; rotation := rotation st; health := health st;
     hunger := hunger st; inventory := inventory st;
     currentGoal := currentGoal st; gamePhase := gamePhase st;
     actionHistory := h; lastUpdate := lastUpdate st |}.

Definition history_capacity : nat := 50.

(** [addToHistory(action, result)] at time [now]. *)
Definition addToHistory (st : BotState) (a : string) (r : Outcome) (now : Z)
    : BotState :=
  let pushed :=
    (actionHistory st ++
     [ {| h_timestamp := now; h_action := a; h_result := r;
          h_phase := gamePhase st |} ])%list in
  set_actionHistory st
    (if (history_capacity <? length pushed)%nat
     then slice_last history_capacity pushed
     else pushed).

(** The arguments of one call of [addToHistory] and the clock. *)
Definition HistoryCall : Type := (string * Outcome * Z)%type.

(** The entry a call appends while the store is [st]. *)
Definition entry_of (st : BotState) (c : HistoryCall) : HistoryEntry :=
  let '(a, r, now) := c in
  {| h_timestamp := now; h_action := a; h_result := r; h_phase := gamePhase st |}.

Definition record (st : BotState) (c : HistoryCall) : BotState :=
  let '(a, r, now) := c in addToHistory st a r now.

(** A sequence of calls of [addToHistory]. *)
Definition record_all (st : BotState) (calls : list HistoryCall) : BotState :=
  fold_left record calls st.

(** [determineGamePhase()] *)
Definition determineGamePhase (st : BotState) : GamePhase :=
  let items := item_names (inventory st) in
  if existsb (fun i => JS.includes i "elytra" || JS.includes i "dragon") items
  then endgame
  else if existsb (fun i => JS.includes i "diamond" || JS.includes i "netherite") items
  then late
  else if existsb (fun i => JS.includes i "iron") items
  then mid
  else early.

(** The 'inventory_content' handler: [update] with the new inventory and
    with the phase computed while the object literal is built, that is on
    the inventory still stored. *)
Definition on_inventory_content (st : BotState) (items : option (list ItemStack))
    (now : Z) : BotState :=
  {| position := position st; rotation := rotation st; health := health st;
     hunger := hunger st;
     inventory := match items with Some l => l | None => [] end;
     currentGoal := currentGoal st;
     gamePhase := determineGamePhase st;
     actionHistory := actionHistory st;
     lastUpdate := now |}.

(** *** Action executor *)

(** What [client.queue] sends. *)
Inductive Packet : Type :=
| player_action (pos : Position)
| crafting_event (recipe : string)
| move_player (pos : Position) (rot : Rotation)
| attack (target : string)
| use_item (act : string).

Record World : Type := { bot : BotState; wire : list Packet }.

Definition queue (p : Packet) (w : World) : World :=
  {| bot := bot w; wire := (wire w ++ [p])%list |}.

(** A handler once its arguments are known: what it sends when called,
    whether it then awaits [wait(2000)], and what it resolves to. *)
Record Handler : Type := {
  sends : World -> World;
  awaits : bool;
  outcome : ExecutionResult
}.

Definition mineBlock (blockType : option string) : Handler :=
  {| sends := fun w =>
       let p := position (bot w) in
       queue (player_action
                {| x := JS.num_floor (x p);
                   y := JS.num_add (JS.num_floor (y p)) (JS.Fin (-1));
                   z := JS.num_floor (z p) |}) w;
     awaits := true;
     outcome :=
       result true
         ("Mining " ++ match blockType with
                       | Some EmptyString | None => "block"
                       | Some b => b
                       end) |}.

Definition craftItem (item : string) : Handler :=
  {| sends := queue (crafting_event item);
     awaits := false;
     outcome := result true ("Crafting " ++ item) |}.

Definition show_arg (a : option string) : string :=
  match a with Some k => k | None => "undefined" end.

(** [directions[direction]] of [move]: the offsets in [x] and [z]; an
    inherited name gives an object without them. *)
Definition directions (direction : option string) (distance : Z)
    : option (JS.num * JS.num) :=
  match direction with
  | None => None
  | Some k =>
      if String.eqb k "north" then Some (JS.Fin 0, JS.Fin (inject_Z (- distance)))
      else if String.eqb k "south" then Some (JS.Fin 0, JS.Fin (inject_Z distance))
      else if String.eqb k "east" then Some (JS.Fin (inject_Z distance), JS.Fin 0)
      else if String.eqb k "west" then Some (JS.Fin (inject_Z (- distance)), JS.Fin 0)
      else if Core.is_inherited k then Some (JS.Undefined, JS.Undefined)
      else None
  end.

Definition move (direction : option string) (distance : Z) : Handler :=
  match directions direction distance with
  | None =>
      {| sends := fun w => w; awaits := false;
         outcome := result false "Invalid direction" |}
  | Some (ox, oz) =>
      {| sends := fun w =>
           let st := bot w in
           queue (move_player
                    {| x := JS.num_add (x (position st)) ox;
                       y := y (position st);
                       z := JS.num_add (z (position st)) oz |}
                    (rotation st)) w;
         awaits := false;
         outcome := result true ("Moving " ++ show_arg direction ++ " ("
                                 ++ JS.show_Z distance ++ "m)") |}
  end.

(** [explore()]; [ox] and [oz] are the offsets [Math.cos(angle) * distance]
    and [Math.sin(angle) * distance] of the random draw. *)
Definition explore (ox oz : Q) : Handler :=
  {| sends := fun w =>
       let st := bot w in
       queue (move_player
                {| x := JS.num_add (x (position st)) (JS.Fin ox);
                   y := y (position st);
                   z := JS.num_add (z (position st)) (JS.Fin oz) |}
                (rotation st)) w;
     awaits := false;
     outcome := result true "Exploring area" |}.

Definition combat (target : option string) : Handler :=
  {| sends := queue (attack match target with
                            | Some EmptyString | None => "nearest_hostile"
                            | Some t => t
                            end);
     awaits := false;
     outcome := result true ("Attacking " ++ show_arg target) |}.

Definition build (structure : string) : Handler :=
  {| sends := fun w => w; awaits := false;
     outcome := result true ("Building " ++ structure) |}.

Definition eat : Handler :=
  {| sends := queue (use_item "consume"); awaits := false;
     outcome := result true "Eating food" |}.

Definition sleep : Handler :=
  {| sends := queue (use_item "sleep"); awaits := false;
     outcome := result true "Sleeping" |}.

Inductive Called : Type :=
| Throws (msg : string)
| Returns (r : ExecutionResult)
| Runs (h : Handler).

(** The two [return] statements of [execute]: the end of the [try] block
    and the [catch] block. *)
Inductive Return : Type :=
| Completed (r : ExecutionResult)
| Caught (msg : string).

Definition returned (r : Return) : ExecutionResult :=
  match r with
  | Completed r => r
  | Caught msg => result false msg
  end.

(** [parseInt(args[1]) || 10] *)
Definition distance_arg (args : list string) : Z :=
  match nth_error args 1 with
  | None => 10
  | Some a =>
      match JS.parseInt a with
      | None => 10
      | Some n => if n =? 0 then 10 else n
      end
  end.

(** The table [actions] of [performAction] and the call [actionFn()];
    [None] is a key the table does not have. *)
Definition actions (command : string) (args : list string) (ox oz : Q)
    : option Called :=
  if String.eqb command "mine" then Some (Runs (mineBlock (nth_error args 0)))
  else if String.eqb command "craft" then Some (Runs (craftItem (JS.join_space args)))
  else if String.eqb command "move" then
    Some (Runs (move (nth_error args 0) (distance_arg args)))
  else if String.eqb command "explore" then Some (Runs (explore ox oz))
  else if String.eqb command "combat" then Some (Runs (combat (nth_error args 0)))
  else if String.eqb command "build" then Some (Runs (build (JS.join_space args)))
  else if String.eqb command "eat" then Some (Runs eat)
  else if String.eqb command "sleep" then Some (Runs sleep)
  else if String.eqb command "constructor" then Some (Returns Core.no_fields)
  else if String.eqb command "toString" || String.eqb command "isPrototypeOf"
  then Some (Returns Core.no_fields)
  else if String.eqb command "__proto__" then
    Some (Throws "actionFn is not a function")
  else if Core.is_inherited command then
    Some (Throws "Cannot convert undefined or null to object")
  else None.

(** [const [command, ...args] = actionString.toLowerCase().split(' ')] *)
Definition tokens (actionString : string) : string * list string :=
  match JS.split_space (JS.toLowerCase actionString) with
  | [] => (EmptyString, [])
  | command :: args => (command, args)
  end.

(** [performAction(actionString, timeout)] up to the race. *)
Definition performAction (actionString : string) (ox oz : Q) : Called :=
  let (command, args) := tokens actionString in
  match actions command args ox oz with
  | None => Returns (result false ("Unknown action: " ++ command))
  | Some called => called
  end.

Definition handler_names : list string :=
  ["mine"; "craft"; "move"; "explore"; "combat"; "build"; "eat"; "sleep"].

(** A call of [execute] that waits for [mineBlock]. *)
Record InFlight : Type := { if_plan : Plan; if_outcome : ExecutionResult }.

(** The executor has no busy flag: [currentAction] is written on entry and
    cleared on exit but never read, so several calls can be in flight.
    The plans of this variant also carry a priority, which is only logged,
    and an estimated time, which is the delay of the timer the handler is
    raced against. *)
Record Sys : Type := {
  world : World;
  currentAction : option Plan;
  pending : list InFlight;
  invoked : nat
}.

Definition new_Sys (now : Z) : Sys :=
  {| world := {| bot := new_BotState now; wire := [] |};
     currentAction := None; pending := []; invoked := 0 |}.

(** The end of [execute]: the history entry and the [finally]. *)
Definition finish (s : Sys) (p : Plan) (r : Outcome) (now : Z) : Sys :=
  {| world := {| bot := addToHistory (bot (world s)) (action p) r now;
                 wire := wire (world s) |};
     currentAction := None;
     pending := pending s;
     invoked := invoked s |}.

(** [execute(plan)] from its call to its first suspension, or to its end
    when nothing is awaited. *)
Definition execute (s : Sys) (p : Plan) (ox oz : Q) (now : Z)
    : Sys * option Return :=
  match performAction (action p) ox oz with
  | Returns r =>
      (finish s p (if succeeded r then success_ else failed) now, Some (Completed r))
  | Throws msg => (finish s p error now, Some (Caught msg))
  | Runs h =>
      let s1 := {| world := sends h (world s); currentAction := Some p;
                   pending := pending s; invoked := S (invoked s) |} in
      if awaits h then
        ({| world := world s1; currentAction := Some p;
            pending := (pending s ++ [ {| if_plan := p; if_outcome := outcome h |} ])%list;
            invoked := invoked s1 |}, None)
      else
        (finish s1 p (if succeeded (outcome h) then success_ else failed) now,
         Some (Completed (outcome h)))
  end.

(** Removes the [i]-th element. *)
Fixpoint remove_nth {A : Type} (i : nat) (l : list A) : list A :=
  match l, i with
  | [], _ => []
  | _ :: more, O => more
  | a :: more, S j => a :: remove_nth j more
  end.

(** What the environment does next. *)
Inductive Event : Type :=
| Execute (plan : Plan) (ox oz : Q)  (* somebody calls [execute(plan)] *)
| WaitOver (i : nat)                 (* the wait of the [i]-th pending call ends *)
| TimeoutFires (i : nat)             (* the timer raced against it fires first *)
| InventoryContent (items : option (list ItemStack)).

(** One transition of the executor and the state store. *)
Definition step (s : Sys) (e : Event) (now : Z) : Sys * option Return :=
  match e with
  | Execute p ox oz => execute s p ox oz now
  | WaitOver i =>
      match nth_error (pending s) i with
      | None => (s, None)
      | Some f =>
          let s1 := finish s (if_plan f)
                      (if succeeded (if_outcome f) then success_ else failed) now in
          ({| world := world s1; currentAction := None;
              pending := remove_nth i (pending s); invoked := invoked s |},
           Some (Completed (if_outcome f)))
      end
  | TimeoutFires i =>
      match nth_error (pending s) i with
      | None => (s, None)
      | Some f =>
          let s1 := finish s (if_plan f) error now in
          ({| world := world s1; currentAction := None;
              pending := remove_nth i (pending s); invoked := invoked s |},
           Some (Caught "Action timeout"))
      end
  | InventoryContent items =>
      ({| world := {| bot := on_inventory_content (bot (world s)) items now;
                      wire := wire (world s) |};
          currentAction := currentAction s; pending := pending s;
          invoked := invoked s |}, None)
  end.

End Broad.

(** ** The control loop of the core variant *)

Module Loop.

(** [MinecraftBot]: the executor with the store it shares, the decision
    engine, the running flag and the count of decision cycles. *)
Record MinecraftBot : Type := {
  executor : Core.Sys;
  ai : Core.GeminiController;
  isRunning : bool;
  thinkCount : nat
}.

(** The bot once [connect()] has built the executor, before the session
    spawns it. *)
Definition connected (now : Z) : MinecraftBot :=
  {| executor := Core.new_Sys now;
     ai := {| Core.conversationHistory := [] |};
     isRunning := false;
     thinkCount := 0 |}.

Definition set_running (b : MinecraftBot) (r : bool) : MinecraftBot :=
  {| executor := executor b; ai := ai b; isRunning := r;
     thinkCount := thinkCount b |}.

(** The 'spawn' listener of [connect()]. *)
Definition on_spawn (b : MinecraftBot) : MinecraftBot := set_running b true.

(** The 'disconnect' listener. *)
Definition on_disconnect (b : MinecraftBot) : MinecraftBot := set_running b false.

(** [shutdown()] *)
Definition shutdown (b : MinecraftBot) : MinecraftBot := set_running b false.

(** What one turn of the loop draws from outside: what the reasoning
    service does, the two draws of [Math.random] and the clock, which is
    read for time stamps only. *)
Record Draw : Type := {
  reply : Core.ServiceReply;
  r1 : Q;
  r2 : Q;
  now : Z
}.

(** [await] on a call of [execute] while nothing else happens: the sleeps
    of the handler in flight end one after the other until the call
    returns. *)
Definition settle (s : Core.Sys) (now : Z) : Core.Sys :=
  match Core.inflight s with
  | Some f =>
      Core.steps s (repeat (Core.SleepOver, now) (S (length (Core.if_rest f))))
  | None => s
  end.

(** One turn of the [while] loop of [aiLoop()] during which nothing but
    the loop acts: [think], then [execute] awaited to its end. *)
Definition iteration (b : MinecraftBot) (d : Draw) : MinecraftBot :=
  let t := Core.think (ai b) (Core.bot (Core.world (executor b))) (reply d) (now d) in
  let s0 := Core.set_world (executor b)
              {| Core.bot := Core.th_state t;
                 Core.wire := Core.wire (Core.world (executor b)) |} in
  let called := Core.step s0 (Core.Execute (Core.th_plan t) (r1 d) (r2 d)) (now d) in
  {| executor := settle (fst called) (now d);
     ai := Core.th_controller t;
     isRunning := isRunning b;
     thinkCount := S (thinkCount b) |}.

(** [aiLoop()] over the draws of its successive turns; the loop ends when
    the running flag is cleared. *)
Fixpoint aiLoop (b : MinecraftBot) (draws : list Draw) : MinecraftBot :=
  match draws with
  | [] => b
  | d :: more => if isRunning b then aiLoop (iteration b d) more else b
  end.

End Loop.

(** ** The planner of the broad variant *)

Module Planner.

(** [fallbackPlan(state)]: the entry of [fallbacks] for the phase; the
    priority 'medium' and the estimated time 30 it adds are constants. *)
Definition fallbackPlan (st : Broad.BotState) : Plan :=
  match Broad.gamePhase st with
  | early => {| action := "mine wood"; reasoning := "Basic resource gathering" |}
  | mid => {| action := "mine iron"; reasoning := "Tool upgrades needed" |}
  | late => {| action := "explore"; reasoning := "Search for stronghold" |}
  | endgame => {| action := "explore"; reasoning := "Locate End Portal" |}
  end.

End Planner.

(** * Vocabulary of the statements *)

(** The trimming of [addToHistory] on a bare list. *)
Definition push_bounded {A : Type} (cap : nat) (h : list A) (e : A) : list A :=
  if (cap <? length (h ++ [e]))%nat then slice_last cap (h ++ [e])%list
  else (h ++ [e])%list.

(** Some item of the inventory has a name whose lower-cased form contains
    [marker]. *)
Definition carries (inv : list ItemStack) (marker : string) : Prop :=
  exists item n pre post,
    In item inv /\ name item = Some n /\ JS.toLowerCase n = pre ++ marker ++ post.

(** The order of the tiers as the specification words it, for a store
    with inventory [inv] and phase function [phase]: iron together with
    diamond is late, and an elytra or dragon item is endgame. *)
Definition tiers_as_stated {S : Type} (inv : S -> list ItemStack)
    (phase : S -> GamePhase) : Prop :=
  (forall st, carries (inv st) "iron" -> carries (inv st) "diamond" ->
              phase st = late)
  /\ (forall st, carries (inv st) "elytra" \/ carries (inv st) "dragon" ->
                 phase st = endgame).

(** The busy flag is set exactly while a call is suspended in its
    handler. *)
Definition flag_tracks_flight (s : Core.Sys) : Prop :=
  Core.isBusy s = match Core.inflight s with Some _ => true | None => false end.

(** Runs the segments of a handler one after the other. *)
Definition run_all (segs : list Core.Segment) (w : Core.World) : Core.World :=
  fold_left (fun w seg => Core.run seg w) segs w.

(** The sleeps of the handler in flight end [n] times in a row. *)
Definition sleeps (n : nat) (now : Z) : list (Core.Event * Z) :=
  repeat (Core.SleepOver, now) n.

(** The reset of the error counter as the specification words it: every
    call of [execute] that ends without a thrown error or a timeout leaves
    the counter at zero. *)
Definition reset_as_stated : Prop :=
  forall s p r1 r2 now s' ret,
    Core.execute s p r1 r2 now = (s', Some ret) ->
    (forall msg, ret <> Core.Caught msg) ->
    Core.consecutiveErrors (Core.bot (Core.world s')) = 0.

(** The answer to an unknown token as the specification words it, in the
    two variants. *)
Definition unknown_as_stated : Prop :=
  (forall a r1 r2,
      ~ In (fst (Core.tokens a)) Core.handler_names ->
      Core.performAction a r1 r2
      = Core.Returns (result false ("Unknown command: " ++ fst (Core.tokens a))))
  /\ (forall a ox oz,
      ~ In (fst (Broad.tokens a)) Broad.handler_names ->
      Broad.performAction a ox oz
      = Broad.Returns (result false ("Unknown command: " ++ fst (Broad.tokens a)))).

Definition sample_item (n : string) : ItemStack := {| name := Some n; count := 1 |}.

Definition plan_of (a : string) : Plan := {| action := a; reasoning := "" |}.

(** A store on which the reasoning service has failed three times, and an
    executor on it that is waiting for the handler of 'wait'. *)
Definition after_three_failures : Core.BotState :=
  let ai := {| Core.conversationHistory := [] |} in
  let t1 := Core.think ai (Core.new_BotState 0) Core.Unreachable 1 in
  let t2 := Core.think ai (Core.th_state t1) Core.Unreachable 2 in
  let t3 := Core.think ai (Core.th_state t2) Core.Unreachable 3 in
  Core.th_state t3.

Definition waiting_after_failures : Core.Sys :=
  fst (Core.execute
         {| Core.world := {| Core.bot := after_three_failures; Core.wire := [] |};
            Core.isBusy := false; Core.inflight := None;
            Core.abandoned := []; Core.invoked := 0 |}
         (plan_of "wait") 0 0 4).

(** The circuit breaker as the specification words it: once the counter
    is above the ceiling, a decision cycle sends no request and returns
    the fallback. *)
Definition breaker_as_stated : Prop :=
  forall ai st reply now,
    Core.maxConsecutiveErrors < Core.consecutiveErrors st ->
    Core.th_requests (Core.think ai st reply now) = []
    /\ Core.th_plan (Core.think ai st reply now) = Core.safeFallback st.

(** The store after [n] decision cycles in which the service was out of
    reach, with no execution in between. *)
Fixpoint after_failures (n : nat) : Core.BotState :=
  match n with
  | O => Core.new_BotState 0
  | S k =>
      Core.th_state
        (Core.think {| Core.conversationHistory := [] |} (after_failures k)
           Core.Unreachable (Z.of_nat n))
  end.

Definition north : Core.Dir :=
  {| Core.dx := JS.Fin 0; Core.dz := JS.Fin (-1); Core.dyaw := JS.Fin 180 |}.

(** Every character of [s] satisfies [p]. *)
Fixpoint all (p : ascii -> bool) (s : string) : bool :=
  match s with
  | EmptyString => true
  | String c r => p c && all p r
  end.

(** [s] has no letter among A-Z. *)
Definition no_capital (s : string) : bool :=
  all (fun c => negb (JS.is_upper c)) s.

(** [s] does not start with a character that satisfies [p]. *)
Definition stops (p : ascii -> bool) (s : string) : bool :=
  match s with
  | EmptyString => true
  | String c _ => negb (p c)
  end.


(** [t] goes in front of the text matched. *)
Definition prepend (t : string) (r : option Regex.found) : option Regex.found :=
  match r with
  | Some (m, cap) => Some (t ++ m, cap)
  | None => None
  end.

(** Splits [t] after a prefix that equals [w] up to the case of letters. *)
Fixpoint strip_ci (w t : string) : option (string * string) :=
  match w, t with
  | EmptyString, _ => Some (EmptyString, t)
  | String _ _, EmptyString => None
  | String c w', String d t' =>
      if Regex.ci_eqb c d then
        match strip_ci w' t' with
        | Some (t1, t2) => Some (String d t1, t2)
        | None => None
        end
      else None
  end.






(** A segment that only moves the bot and writes to the session: it
    leaves the history, the error counter, the phase, the inventory, the
    health and the entity id of the store alone. *)
Definition quiet (seg : Core.Segment) : Prop :=
  forall w,
    let st := Core.bot w in
    let st' := Core.bot (Core.run seg w) in
    Core.actionHistory st' = Core.actionHistory st
    /\ Core.consecutiveErrors st' = Core.consecutiveErrors st
    /\ Core.gamePhase st' = Core.gamePhase st
    /\ Core.inventory st' = Core.inventory st
    /\ Core.health st' = Core.health st
    /\ Core.entityId st' = Core.entityId st.

(** Every segment still to run, in flight or abandoned, is quiet. *)
Definition quiet_sys (s : Core.Sys) : Prop :=
  (forall f, Core.inflight s = Some f -> Forall quiet (Core.if_rest f))
  /\ Forall (Forall quiet) (Core.abandoned s).

(** The events that come from the session. *)
Definition is_server_event (e : Core.Event) : bool :=
  match e with
  | Core.InventoryContent _ | Core.SetHealth _ | Core.UpdateAttributes _ _
  | Core.MovePlayer _ _ _ | Core.StartGame _ _ => true
  | _ => false
  end.

(** The plan of the call that a transition can end. *)
Definition ending_plan (s : Core.Sys) (e : Core.Event) : option Plan :=
  match e with
  | Core.Execute p _ _ => Some p
  | Core.SleepOver | Core.TimeoutFires | Core.HandlerThrows _ =>
      option_map Core.if_plan (Core.inflight s)
  | _ => None
  end.

(** The history entry [execute] writes for a call that returns [ret]. *)
Definition entry_for (st : Core.BotState) (p : Plan) (ret : Core.Return) (now : Z)
    : option Core.HistoryEntry :=
  match ret with
  | Core.Busy => None
  | Core.Completed r =>
      Some {| Core.h_timestamp := now; Core.h_action := action p;
              Core.h_result := if succeeded r then Core.Tick else Core.Cross;
              Core.h_details := match message r with Some m => m | None => "" end;
              Core.h_phase := Core.gamePhase st;
              Core.h_position := Core.position st |}
  | Core.Caught msg =>
      Some {| Core.h_timestamp := now; Core.h_action := action p;
              Core.h_result := Core.ERROR; Core.h_details := msg;
              Core.h_phase := Core.gamePhase st;
              Core.h_position := Core.position st |}
  end.

(** A jump northwards in flight, the timer firing on it, a call of 'wait'
    that follows, and the jump going on meanwhile. *)
Definition jumping : Core.Sys :=
  fst (Core.step (Core.new_Sys 0) (Core.Execute (plan_of "jumpmove north 1") 0 0) 0).

Definition given_up : Core.Sys := fst (Core.step jumping Core.TimeoutFires 1).

Definition waiting_meanwhile : Core.Sys :=
  fst (Core.step given_up (Core.Execute (plan_of "wait") 0 0) 1).

Definition resumed : Core.Sys :=
  fst (Core.step waiting_meanwhile (Core.AbandonedSleepOver 0) 1).




(** The inventories that the 'inventory_content' events of a run bring,
    in order; a packet without items brings the empty inventory. *)
Fixpoint inventories (es : list (Core.Event * Z)) : list (list ItemStack) :=
  match es with
  | [] => []
  | (Core.InventoryContent items, _) :: more =>
      match items with Some l => l | None => [] end :: inventories more
  | _ :: more => inventories more
  end.

(** The phase [determineGamePhase] gives for an inventory. *)
Definition phase_of (inv : list ItemStack) : GamePhase :=
  Core.determineGamePhase (Core.set_inventory (Core.new_BotState 0) inv).

(** The phases in their order. *)
Definition rank (g : GamePhase) : nat :=
  match g with early => 0 | mid => 1 | late => 2 | endgame => 3 end.

(** * Properties *)

(** Rules out one key of a dispatch table: the token is not that handler
    ([H] says it is none of them, or that it is not an inherited name). *)
Ltac not_this_key H :=
  match goal with
  | |- context [String.eqb ?c ?k] =>
      destruct (String.eqb_spec c k) as [-> | _];
      [exfalso; first [apply H; cbn; tauto | vm_compute in H; discriminate] |]
  end.

(** ** The bounded history *)

Section BoundedLog.

Context {A : Type}.

Lemma slice_last_short (n : nat) (l : list A) :
  (length l <= n)%nat -> slice_last n l = l.
Proof.
  intros H. unfold slice_last.
  replace (length l - n)%nat with 0%nat by lia. reflexivity.
Qed.

Lemma slice_last_length (n : nat) (l : list A) :
  length (slice_last n l) = Nat.min n (length l).
Proof. unfold slice_last. rewrite length_skipn. lia. Qed.

Lemma push_bounded_slice (cap : nat) (h : list A) (e : A) :
  push_bounded cap h e = slice_last cap (h ++ [e]).
Proof.
  unfold push_bounded.
  destruct (Nat.ltb_spec cap (length (h ++ [e]))) as [Hlt | Hge].
  - reflexivity.
  - symmetry. now apply slice_last_short.
Qed.

Lemma slice_last_push (cap : nat) (l : list A) (e : A) :
  slice_last cap (slice_last cap l ++ [e]) = slice_last cap (l ++ [e]).
Proof.
  destruct (Nat.le_gt_cases (length l) cap) as [Hle | Hgt].
  - now rewrite (slice_last_short cap l Hle).
  - unfold slice_last.
    rewrite !length_app, length_skipn. cbn [length].
    replace (length l - (length l - cap) + 1 - cap)%nat with 1%nat by lia.
    rewrite !skipn_app, length_skipn, skipn_skipn.
    replace (1 + (length l - cap))%nat with (length l + 1 - cap)%nat by lia.
    f_equal.
    replace (1 - (length l - (length l - cap)))%nat with (1 - cap)%nat by lia.
    replace (length l + 1 - cap - length l)%nat with (1 - cap)%nat by lia.
    reflexivity.
Qed.

Lemma fold_push_bounded_slice (cap : nat) (es : list A) :
  forall l,
    fold_left (push_bounded cap) es (slice_last cap l)
    = slice_last cap (l ++ es).
Proof.
  induction es as [| e es IH]; intros l; cbn [fold_left].
  - now rewrite app_nil_r.
  - rewrite push_bounded_slice, slice_last_push, IH, <- app_assoc.
    reflexivity.
Qed.

(** Pushing a run of entries keeps exactly the last [cap] of everything
    that was ever in the log, in the order of insertion. *)
Lemma fold_push_bounded (cap : nat) (es : list A) (h : list A) (e : A) :
  fold_left (push_bounded cap) es (push_bounded cap h e)
  = slice_last cap (h ++ e :: es).
Proof.
  rewrite push_bounded_slice, fold_push_bounded_slice, <- app_assoc.
  reflexivity.
Qed.

End BoundedLog.

Lemma core_record_history (st : Core.BotState) (c : Core.HistoryCall) :
  Core.actionHistory (Core.record st c)
  = push_bounded Core.history_capacity (Core.actionHistory st) (Core.entry_of st c)
  /\ Core.gamePhase (Core.record st c) = Core.gamePhase st
  /\ Core.position (Core.record st c) = Core.position st.
Proof. destruct c as [[[a r] d] now]. repeat split. Qed.

Lemma core_record_all_history (calls : list Core.HistoryCall) :
  forall st,
    Core.actionHistory (Core.record_all st calls)
    = fold_left (push_bounded Core.history_capacity)
        (map (Core.entry_of st) calls) (Core.actionHistory st).
Proof.
  induction calls as [| c calls IH]; intros st; [reflexivity |].
  unfold Core.record_all in *. cbn [fold_left map].
  destruct (core_record_history st c) as (Hh & Hg & Hp).
  rewrite IH, Hh.
  f_equal. apply map_ext. intros [[[a r] d] now].
  unfold Core.entry_of. now rewrite Hg, Hp.
Qed.

Lemma broad_record_history (st : Broad.BotState) (c : Broad.HistoryCall) :
  Broad.actionHistory (Broad.record st c)
  = push_bounded Broad.history_capacity (Broad.actionHistory st) (Broad.entry_of st c)
  /\ Broad.gamePhase (Broad.record st c) = Broad.gamePhase st.
Proof. destruct c as [[a r] now]. repeat split. Qed.

Lemma broad_record_all_history (calls : list Broad.HistoryCall) :
  forall st,
    Broad.actionHistory (Broad.record_all st calls)
    = fold_left (push_bounded Broad.history_capacity)
        (map (Broad.entry_of st) calls) (Broad.actionHistory st).
Proof.
  induction calls as [| c calls IH]; intros st; [reflexivity |].
  unfold Broad.record_all in *. cbn [fold_left map].
  destruct (broad_record_history st c) as (Hh & Hg).
  rewrite IH, Hh.
  f_equal. apply map_ext. intros [[a r] now].
  unfold Broad.entry_of. now rewrite Hg.
Qed.

(** C7. Whatever the sequence of [addToHistory] calls, the history holds
    the last entries of everything logged, in insertion order, and never
    more than its capacity: 100 in the core variant, 50 in the broad one.
    What is missing from the full log is a prefix of it, so the entries
    evicted are the oldest ones. *)
Theorem C7_history_bounded_fifo :
  (forall (st : Core.BotState) (c : Core.HistoryCall) (calls : list Core.HistoryCall),
      let full := (Core.actionHistory st ++ map (Core.entry_of st) (c :: calls))%list in
      let kept := Core.actionHistory (Core.record_all st (c :: calls)) in
      kept = slice_last 100 full
      /\ (length kept <= 100)%nat
      /\ full = (firstn (length full - 100) full ++ kept)%list)
  /\ (forall (now : Z) (calls : list Core.HistoryCall),
      let kept := Core.actionHistory (Core.record_all (Core.new_BotState now) calls) in
      kept = slice_last 100 (map (Core.entry_of (Core.new_BotState now)) calls)
      /\ (length kept <= 100)%nat)
  /\ (forall (st : Broad.BotState) (c : Broad.HistoryCall) (calls : list Broad.HistoryCall),
      let full := (Broad.actionHistory st ++ map (Broad.entry_of st) (c :: calls))%list in
      let kept := Broad.actionHistory (Broad.record_all st (c :: calls)) in
      kept = slice_last 50 full
      /\ (length kept <= 50)%nat
      /\ full = (firstn (length full - 50) full ++ kept)%list)
  /\ (forall (now : Z) (calls : list Broad.HistoryCall),
      let kept := Broad.actionHistory (Broad.record_all (Broad.new_BotState now) calls) in
      kept = slice_last 50 (map (Broad.entry_of (Broad.new_BotState now)) calls)
      /\ (length kept <= 50)%nat).
Proof.
  repeat split.
  - rewrite core_record_all_history. cbn [map fold_left].
    apply fold_push_bounded.
  - rewrite core_record_all_history. cbn [map fold_left].
    rewrite fold_push_bounded, slice_last_length.
    change Core.history_capacity with 100%nat. lia.
  - rewrite core_record_all_history. cbn [map fold_left].
    rewrite fold_push_bounded. unfold slice_last.
    symmetry. apply firstn_skipn.
  - rewrite core_record_all_history.
    destruct calls as [| c calls]; [reflexivity |].
    cbn [map fold_left]. now rewrite fold_push_bounded.
  - rewrite core_record_all_history.
    destruct calls as [| c calls]; [cbn; lia |].
    cbn [map fold_left].
    rewrite fold_push_bounded, slice_last_length.
    change Core.history_capacity with 100%nat. lia.
  - rewrite broad_record_all_history. cbn [map fold_left].
    apply fold_push_bounded.
  - rewrite broad_record_all_history. cbn [map fold_left].
    rewrite fold_push_bounded, slice_last_length.
    change Broad.history_capacity with 50%nat. lia.
  - rewrite broad_record_all_history. cbn [map fold_left].
    rewrite fold_push_bounded. unfold slice_last.
    symmetry. apply firstn_skipn.
  - rewrite broad_record_all_history.
    destruct calls as [| c calls]; [reflexivity |].
    cbn [map fold_left]. now rewrite fold_push_bounded.
  - rewrite broad_record_all_history.
    destruct calls as [| c calls]; [cbn; lia |].
    cbn [map fold_left].
    rewrite fold_push_bounded, slice_last_length.
    change Broad.history_capacity with 50%nat. lia.
Qed.

(** ** Phase inference *)

Lemma append_nil_r (s : string) : s ++ "" = s.
Proof. induction s as [| c s IH]; cbn; [reflexivity | now rewrite IH]. Qed.

Lemma append_assoc (a b c : string) : (a ++ b) ++ c = a ++ (b ++ c).
Proof. induction a as [| x a IH]; cbn; [reflexivity | now rewrite IH]. Qed.

Lemma prefix_spec (n s : string) :
  String.prefix n s = true <-> exists post, s = n ++ post.
Proof.
  revert s. induction n as [| a n IH]; intros s.
  - split; [intros _; now exists s | destruct s; reflexivity].
  - destruct s as [| b s]; cbn.
    + split; [discriminate | intros [post H]; discriminate].
    + destruct (ascii_dec a b) as [-> | Hne].
      * rewrite IH. split; intros [post H]; exists post.
        -- now rewrite H.
        -- now injection H.
      * split; [discriminate |].
        intros [post H]. injection H as H1 H2. congruence.
Qed.

Lemma includes_spec (s n : string) :
  JS.includes s n = true <-> exists pre post, s = pre ++ n ++ post.
Proof.
  induction s as [| c s IH]; cbn [JS.includes].
  - rewrite orb_false_r, prefix_spec. split.
    + intros [post H]. now exists "", post.
    + intros (pre & post & H). destruct pre; [now exists post |].
      discriminate.
  - rewrite orb_true_iff, prefix_spec, IH. split.
    + intros [[post H] | (pre & post & H)].
      * now exists "", post.
      * exists (String c pre), post. cbn. now rewrite H.
    + intros (pre & post & H). destruct pre as [| d pre].
      * left. now exists post.
      * right. cbn in H. injection H as _ H. now exists pre, post.
Qed.

Lemma carries_spec (inv : list ItemStack) (marker : string) :
  marker <> "" ->
  existsb (fun i => JS.includes i marker) (item_names inv) = true
  <-> carries inv marker.
Proof.
  intros Hne. unfold carries, item_names.
  rewrite existsb_exists. split.
  - intros (i & Hin & Hinc). apply in_map_iff in Hin.
    destruct Hin as (item & <- & Hitem).
    apply includes_spec in Hinc. destruct Hinc as (pre & post & H).
    destruct (name item) as [n |] eqn:Hn.
    + now exists item, n, pre, post.
    + destruct pre; [destruct marker; [congruence | discriminate] | discriminate].
  - intros (item & n & pre & post & Hin & Hn & H).
    exists (JS.toLowerCase n). split.
    + apply in_map_iff. exists item. now rewrite Hn.
    + apply includes_spec. now exists pre, post.
Qed.

Lemma existsb_or {A : Type} (f g : A -> bool) (l : list A) :
  existsb (fun a => f a || g a) l = existsb f l || existsb g l.
Proof.
  induction l as [| a l IH]; cbn; [reflexivity |].
  rewrite IH. destruct (f a), (g a), (existsb f l), (existsb g l); reflexivity.
Qed.

(** The markers of a tier, as a proposition and as the test of the code. *)
Lemma two_markers (inv : list ItemStack) (m1 m2 : string) :
  m1 <> "" -> m2 <> "" ->
  existsb (fun i => JS.includes i m1 || JS.includes i m2) (item_names inv) = true
  <-> carries inv m1 \/ carries inv m2.
Proof.
  intros H1 H2.
  rewrite existsb_or, orb_true_iff, !carries_spec by assumption. tauto.
Qed.

Lemma two_markers_false (inv : list ItemStack) (m1 m2 : string) :
  m1 <> "" -> m2 <> "" ->
  ~ (carries inv m1 \/ carries inv m2) ->
  existsb (fun i => JS.includes i m1 || JS.includes i m2) (item_names inv) = false.
Proof.
  intros H1 H2 Hn. apply not_true_is_false.
  now rewrite two_markers.
Qed.

Lemma one_marker_false (inv : list ItemStack) (m : string) :
  m <> "" -> ~ carries inv m ->
  existsb (fun i => JS.includes i m) (item_names inv) = false.
Proof.
  intros H Hn. apply not_true_is_false. now rewrite carries_spec.
Qed.

Lemma carries_sample (inv : list ItemStack) (n pre marker post : string) :
  In (sample_item n) inv -> JS.toLowerCase n = pre ++ marker ++ post ->
  carries inv marker.
Proof. intros Hin H. now exists (sample_item n), n, pre, post. Qed.

(** C5, as stated, fails.  The core variant has no endgame tier: an
    inventory holding an elytra is classified early.  In the broad variant
    iron together with diamond is not late when an elytra is held too. *)
Lemma C5_tiers_as_stated_fail :
  ~ tiers_as_stated Core.inventory Core.determineGamePhase
  /\ ~ tiers_as_stated Broad.inventory Broad.determineGamePhase.
Proof.
  split.
  - intros [_ H].
    specialize (H (Core.set_inventory (Core.new_BotState 0) [sample_item "Elytra"])).
    assert (Hc : carries [sample_item "Elytra"] "elytra").
    { apply (carries_sample _ "Elytra" "" "elytra" ""); [now left | reflexivity]. }
    specialize (H (or_introl Hc)). vm_compute in H. discriminate.
  - intros [H _].
    pose (inv := [sample_item "iron_ingot"; sample_item "diamond"; sample_item "elytra"]).
    specialize (H {| Broad.position := {| x := JS.Fin 0; y := JS.Fin 0; z := JS.Fin 0 |};
                     Broad.rotation := {| yaw := JS.Fin 0; pitch := JS.Fin 0 |};
                     Broad.health := 20; Broad.hunger := 20;
                     Broad.inventory := inv; Broad.currentGoal := None;
                     Broad.gamePhase := early; Broad.actionHistory := [];
                     Broad.lastUpdate := 0 |}).
    cbn [Broad.inventory] in H.
    assert (Hi : carries inv "iron").
    { apply (carries_sample _ "iron_ingot" "" "iron" "_ingot");
        [now left | reflexivity]. }
    assert (Hd : carries inv "diamond").
    { apply (carries_sample _ "diamond" "" "diamond" "");
        [right; now left | reflexivity]. }
    specialize (H Hi Hd). vm_compute in H. discriminate.
Qed.

(** C5, amended.  The phase depends on the lower-cased item names only.
    The broad variant checks elytra/dragon, then diamond/netherite, then
    iron, and defaults to early.  The core variant has three tiers:
    diamond/netherite, then iron, then early; it never answers endgame.
    In both, iron together with diamond is late unless (broad variant) an
    elytra or dragon item is held as well. *)
Theorem C5_tier_order :
  (forall st st' : Broad.BotState,
      item_names (Broad.inventory st) = item_names (Broad.inventory st') ->
      Broad.determineGamePhase st = Broad.determineGamePhase st')
  /\ (forall st : Broad.BotState,
      let inv := Broad.inventory st in
      let top := carries inv "elytra" \/ carries inv "dragon" in
      let high := carries inv "diamond" \/ carries inv "netherite" in
      (top -> Broad.determineGamePhase st = endgame)
      /\ (~ top -> high -> Broad.determineGamePhase st = late)
      /\ (~ top -> ~ high -> carries inv "iron" -> Broad.determineGamePhase st = mid)
      /\ (~ top -> ~ high -> ~ carries inv "iron" -> Broad.determineGamePhase st = early)
      /\ (~ top -> carries inv "iron" -> carries inv "diamond" ->
          Broad.determineGamePhase st = late))
  /\ (forall st st' : Core.BotState,
      item_names (Core.inventory st) = item_names (Core.inventory st') ->
      Core.determineGamePhase st = Core.determineGamePhase st')
  /\ (forall st : Core.BotState,
      let inv := Core.inventory st in
      let high := carries inv "diamond" \/ carries inv "netherite" in
      (high -> Core.determineGamePhase st = late)
      /\ (~ high -> carries inv "iron" -> Core.determineGamePhase st = mid)
      /\ (~ high -> ~ carries inv "iron" -> Core.determineGamePhase st = early)
      /\ (carries inv "iron" -> carries inv "diamond" ->
          Core.determineGamePhase st = late)
      /\ Core.determineGamePhase st <> endgame).
Proof.
  assert (Hne : forall c r, String c r <> "") by discriminate.
  split; [| split; [| split]].
  - intros st st' H. unfold Broad.determineGamePhase. now rewrite H.
  - intros st inv top high.
    assert (Btop : top -> Broad.determineGamePhase st = endgame).
    { intros Ht. unfold Broad.determineGamePhase; fold inv.
      now rewrite (proj2 (two_markers inv "elytra" "dragon" (Hne _ _) (Hne _ _)) Ht). }
    assert (Bhigh : ~ top -> high -> Broad.determineGamePhase st = late).
    { intros Hnt Hh. unfold Broad.determineGamePhase; fold inv.
      rewrite (two_markers_false inv "elytra" "dragon" (Hne _ _) (Hne _ _) Hnt).
      now rewrite (proj2 (two_markers inv "diamond" "netherite" (Hne _ _) (Hne _ _)) Hh). }
    repeat split; try assumption.
    + intros Hnt Hnh Hi. unfold Broad.determineGamePhase; fold inv.
      rewrite (two_markers_false inv "elytra" "dragon" (Hne _ _) (Hne _ _) Hnt).
      rewrite (two_markers_false inv "diamond" "netherite" (Hne _ _) (Hne _ _) Hnh).
      now rewrite (proj2 (carries_spec inv "iron" (Hne _ _)) Hi).
    + intros Hnt Hnh Hi. unfold Broad.determineGamePhase; fold inv.
      rewrite (two_markers_false inv "elytra" "dragon" (Hne _ _) (Hne _ _) Hnt).
      rewrite (two_markers_false inv "diamond" "netherite" (Hne _ _) (Hne _ _) Hnh).
      now rewrite (one_marker_false inv "iron" (Hne _ _) Hi).
    + intros Hnt _ Hd. apply Bhigh; [assumption | now left].
  - intros st st' H. unfold Core.determineGamePhase. now rewrite H.
  - intros st inv high.
    assert (Chigh : high -> Core.determineGamePhase st = late).
    { intros Hh. unfold Core.determineGamePhase; fold inv.
      now rewrite (proj2 (two_markers inv "diamond" "netherite" (Hne _ _) (Hne _ _)) Hh). }
    repeat split; try assumption.
    + intros Hnh Hi. unfold Core.determineGamePhase; fold inv.
      rewrite (two_markers_false inv "diamond" "netherite" (Hne _ _) (Hne _ _) Hnh).
      now rewrite (proj2 (carries_spec inv "iron" (Hne _ _)) Hi).
    + intros Hnh Hi. unfold Core.determineGamePhase; fold inv.
      rewrite (two_markers_false inv "diamond" "netherite" (Hne _ _) (Hne _ _) Hnh).
      now rewrite (one_marker_false inv "iron" (Hne _ _) Hi).
    + intros _ Hd. apply Chigh. now left.
    + unfold Core.determineGamePhase.
      destruct (existsb _ _); [discriminate |].
      destruct (existsb _ _); discriminate.
Qed.

(** The amended tier order at work on two inventories. *)
Lemma C5_tier_order_witness :
  Broad.determineGamePhase
    {| Broad.position := {| x := JS.Fin 0; y := JS.Fin 0; z := JS.Fin 0 |};
       Broad.rotation := {| yaw := JS.Fin 0; pitch := JS.Fin 0 |};
       Broad.health := 20; Broad.hunger := 20;
       Broad.inventory := [sample_item "Dragon_Egg"; sample_item "iron_ingot"];
       Broad.currentGoal := None; Broad.gamePhase := early;
       Broad.actionHistory := []; Broad.lastUpdate := 0 |} = endgame
  /\ Core.determineGamePhase
       (Core.set_inventory (Core.new_BotState 0)
          [sample_item "iron_ingot"; sample_item "Diamond"]) = late.
Proof.
  split.
  - apply (proj1 (proj1 (proj2 C5_tier_order) _)).
    right. exists (sample_item "Dragon_Egg"), "Dragon_Egg", "", "_egg".
    repeat split. now left.
  - apply (proj1 (proj2 (proj2 (proj2 (proj2 (proj2 (proj2 C5_tier_order)) _))))).
    + exists (sample_item "iron_ingot"), "iron_ingot", "", "_ingot".
      repeat split. now left.
    + exists (sample_item "Diamond"), "Diamond", "", "".
      repeat split. right. now left.
Defined.

(** The phase written by the 'inventory_content' handler is the phase of
    the inventory held before the event. *)
Lemma core_phase_of_previous_inventory (st : Core.BotState)
    (items : option (list ItemStack)) (now : Z) :
  let st' := Core.on_inventory_content st items now in
  Core.gamePhase st' = Core.determineGamePhase st
  /\ Core.inventory st' = match items with Some l => l | None => [] end.
Proof. split; reflexivity. Qed.

(** C4. On a fresh store, an 'inventory_content' event that brings a diamond
    pickaxe leaves the stored phase at early, although the phase of the
    inventory that results is late; the stored phase catches up only with
    the next event, whatever that one brings. *)
Theorem C4_phase_lags_one_event :
  let st0 := Core.new_BotState 0 in
  let st1 := Core.on_inventory_content st0 (Some [sample_item "diamond_pickaxe"]) 1 in
  let st2 := Core.on_inventory_content st1 (Some []) 2 in
  Core.gamePhase st1 = early
  /\ Core.determineGamePhase st1 = late
  /\ Core.gamePhase st2 = late
  /\ Core.determineGamePhase st2 = early.
Proof. repeat split. Qed.

(** ** The action executor of the core variant *)

(** The executor of the broad variant has no guard: a call that arrives
    while another one is recorded as current runs its handler all the
    same. *)
Lemma broad_execute_has_no_guard (s : Broad.Sys) (p0 : Plan) (now : Z) :
  Broad.currentAction s = Some p0 ->
  let out := Broad.step s (Broad.Execute (plan_of "eat") 0 0) now in
  snd out = Some (Broad.Completed (result true "Eating food"))
  /\ Broad.wire (Broad.world (fst out))
     = (Broad.wire (Broad.world s) ++ [Broad.use_item "consume"])%list
  /\ Broad.invoked (fst out) = S (Broad.invoked s).
Proof. intros _. repeat split. Qed.

Lemma finish_ok_flags (s : Core.Sys) (p : Plan) (r : ExecutionResult) (now : Z) :
  Core.isBusy (Core.finish_ok s p r now) = false
  /\ Core.inflight (Core.finish_ok s p r now) = None
  /\ Core.consecutiveErrors (Core.bot (Core.world (Core.finish_ok s p r now))) = 0
  /\ Core.wire (Core.world (Core.finish_ok s p r now)) = Core.wire (Core.world s)
  /\ Core.invoked (Core.finish_ok s p r now) = Core.invoked s.
Proof. repeat split. Qed.

Lemma finish_error_flags (s : Core.Sys) (p : Plan) (msg : string) (now : Z) :
  Core.isBusy (Core.finish_error s p msg now) = false
  /\ Core.inflight (Core.finish_error s p msg now) = None
  /\ Core.consecutiveErrors (Core.bot (Core.world (Core.finish_error s p msg now)))
     = Core.consecutiveErrors (Core.bot (Core.world s))
  /\ Core.wire (Core.world (Core.finish_error s p msg now)) = Core.wire (Core.world s).
Proof. repeat split. Qed.

(** Every way a call of [execute] can end, told by the transition that
    ends it. *)
Lemma step_return_cases (s s' : Core.Sys) (e : Core.Event) (now : Z)
    (ret : Core.Return) :
  Core.step s e now = (s', Some ret) ->
  (ret = Core.Busy /\ s' = s /\ Core.isBusy s = true
   /\ exists p r1 r2, e = Core.Execute p r1 r2)
  \/ (exists s0 p r, ret = Core.Completed r /\ s' = Core.finish_ok s0 p r now)
  \/ (exists s0 p msg l,
        ret = Core.Caught msg
        /\ Core.isBusy s' = false /\ Core.inflight s' = None
        /\ Core.world s' = Core.world (Core.finish_error s0 p msg now)
        /\ Core.world s0 = Core.world s
        /\ Core.abandoned s' = l).
Proof.
  destruct e as [p r1 r2 | | | msg | i | items | h | id attrs | pos id rot | id pos];
    cbn [Core.step]; intros H.
  - unfold Core.execute in H.
    destruct (Core.isBusy s) eqn:Hb.
    + injection H as <- <-. left. repeat split. now exists p, r1, r2.
    + destruct (Core.performAction (action p) r1 r2) as [msg | r | h].
      * injection H as <- <-. right; right.
        exists s, p, msg, (Core.abandoned s). repeat split.
      * injection H as <- <-. right; left. now exists s, p, r.
      * destruct (Core.segments h) as [| first rest].
        -- injection H as <- <-. right; left. eexists _, p, _. split; reflexivity.
        -- discriminate.
  - destruct (Core.inflight s) as [f |]; [| discriminate].
    destruct (Core.if_rest f); [| discriminate].
    injection H as <- <-. right; left. now exists s, (Core.if_plan f), (Core.if_outcome f).
  - destruct (Core.inflight s) as [f |]; [| discriminate].
    injection H as <- <-. right; right.
    exists s, (Core.if_plan f), "Action timeout",
      (Core.abandoned s ++ [Core.if_rest f])%list.
    repeat split.
  - destruct (Core.inflight s) as [f |]; [| discriminate].
    injection H as <- <-. right; right.
    exists s, (Core.if_plan f), msg, (Core.abandoned s).
    repeat split.
  - destruct (Core.resume_abandoned i (Core.abandoned s) (Core.world s)).
    discriminate.
  - discriminate.
  - discriminate.
  - discriminate.
  - discriminate.
  - discriminate.
Qed.

(** The sleeps of a handler in flight end one after the other: its
    remaining segments run in order and the call is still in flight, with
    nothing left to run. *)
Lemma sleeps_run_rest (now : Z) (rest : list Core.Segment) :
  forall (s : Core.Sys) (p : Plan) (r : ExecutionResult),
    Core.inflight s = Some {| Core.if_plan := p; Core.if_rest := rest;
                              Core.if_outcome := r |} ->
    let s' := Core.steps s (sleeps (length rest) now) in
    Core.inflight s' = Some {| Core.if_plan := p; Core.if_rest := [];
                               Core.if_outcome := r |}
    /\ Core.world s' = run_all rest (Core.world s)
    /\ Core.isBusy s' = Core.isBusy s
    /\ Core.invoked s' = Core.invoked s
    /\ Core.abandoned s' = Core.abandoned s.
Proof.
  induction rest as [| seg rest IH]; intros s p r Hin.
  - cbn. repeat split. exact Hin.
  - cbn [length sleeps repeat Core.steps]. cbn [Core.step]. rewrite Hin.
    cbn [Core.if_rest Core.if_plan Core.if_outcome fst].
    match goal with |- context [Core.steps ?s1 _] =>
      specialize (IH s1 p r eq_refl) end.
    cbn zeta in IH. unfold sleeps in IH.
    destruct IH as (H1 & H2 & H3 & H4 & H5).
    repeat split; assumption.
Qed.

(** Left alone, a call in flight ends: after as many sleeps as it has
    segments left plus one, [execute] returns what the handler resolved
    to. *)
Lemma inflight_call_completes (now : Z) (s : Core.Sys) (f : Core.InFlight) :
  Core.inflight s = Some f ->
  let s1 := Core.steps s (sleeps (length (Core.if_rest f)) now) in
  Core.step s1 Core.SleepOver now
  = (Core.finish_ok s1 (Core.if_plan f) (Core.if_outcome f) now,
     Some (Core.Completed (Core.if_outcome f)))
  /\ Core.world s1 = run_all (Core.if_rest f) (Core.world s).
Proof.
  intros Hin. destruct f as [p rest r].
  destruct (sleeps_run_rest now rest s p r Hin) as (H1 & H2 & _).
  cbn [Core.if_rest Core.if_plan Core.if_outcome].
  split; [| exact H2].
  cbn [Core.step]. rewrite H1. reflexivity.
Qed.

Lemma step_keeps_flag_tracking (s : Core.Sys) (e : Core.Event) (now : Z) :
  flag_tracks_flight s -> flag_tracks_flight (fst (Core.step s e now)).
Proof.
  unfold flag_tracks_flight.
  destruct e as [p r1 r2 | | | msg | i | items | h | id attrs | pos id rot | id pos];
    cbn [Core.step]; intros H.
  - unfold Core.execute.
    destruct (Core.isBusy s) eqn:Hb; [cbn [fst]; now rewrite Hb |].
    destruct (Core.performAction (action p) r1 r2) as [msg | r | h];
      try reflexivity.
    destruct (Core.segments h); reflexivity.
  - destruct (Core.inflight s) as [f |] eqn:Hf; [| cbn; now rewrite Hf].
    destruct (Core.if_rest f); [reflexivity | exact H].
  - destruct (Core.inflight s) as [f |] eqn:Hf; [reflexivity | cbn; now rewrite Hf].
  - destruct (Core.inflight s) as [f |] eqn:Hf; [reflexivity | cbn; now rewrite Hf].
  - destruct (Core.resume_abandoned i (Core.abandoned s) (Core.world s)).
    exact H.
  - exact H.
  - exact H.
  - exact H.
  - exact H.
  - exact H.
Qed.

Lemma steps_keep_flag_tracking (es : list (Core.Event * Z)) :
  forall s, flag_tracks_flight s -> flag_tracks_flight (Core.steps s es).
Proof.
  induction es as [| [e now] es IH]; intros s H; [exact H |].
  cbn [Core.steps]. apply IH. now apply step_keeps_flag_tracking.
Qed.

(** C1. While the busy flag is set, [execute] returns
    [{success:false, message:'Busy'}] at once and changes nothing: the
    executor and the store are the same afterwards, so no handler was
    called, no packet was written, and the flag and the history are as
    before.  From the start, the flag is set whenever a call is in flight,
    so every call that arrives meanwhile is turned away in this way. *)
Theorem C1_busy_call_rejected :
  (forall (s : Core.Sys) (p : Plan) (r1 r2 : Q) (now : Z),
      Core.isBusy s = true ->
      exists ret,
        Core.step s (Core.Execute p r1 r2) now = (s, Some ret)
        /\ Core.returned ret = {| success := Some false; message := Some "Busy" |}
        /\ Core.invoked (fst (Core.step s (Core.Execute p r1 r2) now)) = Core.invoked s
        /\ Core.wire (Core.world (fst (Core.step s (Core.Execute p r1 r2) now)))
           = Core.wire (Core.world s)
        /\ Core.bot (Core.world (fst (Core.step s (Core.Execute p r1 r2) now)))
           = Core.bot (Core.world s)
        /\ Core.isBusy (fst (Core.step s (Core.Execute p r1 r2) now)) = true)
  /\ (forall (t0 : Z) (es : list (Core.Event * Z)) (f : Core.InFlight)
             (p : Plan) (r1 r2 : Q) (now : Z),
      let s := Core.steps (Core.new_Sys t0) es in
      Core.inflight s = Some f ->
      Core.step s (Core.Execute p r1 r2) now = (s, Some Core.Busy)).
Proof.
  split.
  - intros s p r1 r2 now Hbusy. exists Core.Busy.
    cbn [Core.step]. unfold Core.execute. rewrite Hbusy.
    repeat split. exact Hbusy.
  - intros t0 es f p r1 r2 now s Hin.
    assert (Hb : Core.isBusy s = true).
    { pose proof (steps_keep_flag_tracking es (Core.new_Sys t0) eq_refl) as Ht.
      unfold flag_tracks_flight in Ht. fold s in Ht. now rewrite Hin in Ht. }
    cbn [Core.step]. unfold Core.execute. now rewrite Hb.
Qed.

(** A call of 'move north 3' arrives while 'wait' is in flight. *)
Lemma C1_busy_call_rejected_witness :
  exists ret,
    Core.step waiting_after_failures (Core.Execute (plan_of "move north 3") 0 0) 5
    = (waiting_after_failures, Some ret)
    /\ Core.returned ret = {| success := Some false; message := Some "Busy" |}.
Proof.
  destruct (proj1 C1_busy_call_rejected waiting_after_failures
              (plan_of "move north 3") 0%Q 0%Q 5 eq_refl) as (ret & H1 & H2 & _).
  exists ret. split; assumption.
Defined.

Lemma steps_app (l1 l2 : list (Core.Event * Z)) :
  forall s, Core.steps s (l1 ++ l2) = Core.steps (Core.steps s l1) l2.
Proof.
  induction l1 as [| [e now] l1 IH]; intros s; [reflexivity |].
  cbn [app Core.steps]. apply IH.
Qed.

Lemma sleeps_succ (n : nat) (now : Z) :
  sleeps (S n) now = (sleeps n now ++ [(Core.SleepOver, now)])%list.
Proof. unfold sleeps. cbn [repeat]. apply repeat_cons. Qed.



(** C10, as stated, fails: a call turned away by the busy guard ends
    without a thrown error or a timeout and leaves the counter at three. *)
Lemma C10_reset_as_stated_fails : ~ reset_as_stated.
Proof.
  intros H.
  specialize (H waiting_after_failures (plan_of "fly") 0%Q 0%Q 5
                waiting_after_failures Core.Busy eq_refl).
  assert (Hn : forall msg, Core.Busy <> Core.Caught msg) by discriminate.
  specialize (H Hn). vm_compute in H. discriminate.
Qed.

(** C10, amended.  Every call of [execute] that gets past the busy guard
    and reaches the end of its [try] block leaves the error counter at
    zero, also when the result says [success:false]: an unknown command,
    an invalid direction.  A call that ends in the [catch] block, or at the
    guard, leaves the counter as it was. *)
Theorem C10_completed_call_resets_counter :
  (forall s e now s' r,
      Core.step s e now = (s', Some (Core.Completed r)) ->
      Core.consecutiveErrors (Core.bot (Core.world s')) = 0)
  /\ (forall s r1 r2 now,
      Core.isBusy s = false ->
      Core.step s (Core.Execute (plan_of "fly") r1 r2) now
      = (Core.finish_ok s (plan_of "fly") (result false "Unknown command: fly") now,
         Some (Core.Completed (result false "Unknown command: fly"))))
  /\ (forall s r1 r2 now,
      Core.isBusy s = false ->
      snd (Core.step s (Core.Execute (plan_of "move up 3") r1 r2) now)
      = Some (Core.Completed (result false "Invalid direction: up"))
      /\ Core.consecutiveErrors
           (Core.bot (Core.world
              (fst (Core.step s (Core.Execute (plan_of "move up 3") r1 r2) now)))) = 0)
  /\ (forall s e now s' ret,
      Core.step s e now = (s', Some ret) ->
      (forall r, ret <> Core.Completed r) ->
      Core.consecutiveErrors (Core.bot (Core.world s'))
      = Core.consecutiveErrors (Core.bot (Core.world s))).
Proof.
  split; [| split; [| split]].
  - intros s e now s' r H.
    destruct (step_return_cases s s' e now _ H)
      as [(Hr & _) | [(s0 & p & r' & _ & ->) | (s0 & p & msg & l & Hr & _)]];
      [discriminate | reflexivity | discriminate].
  - intros s r1 r2 now Hb. cbn [Core.step]. unfold Core.execute.
    rewrite Hb. reflexivity.
  - intros s r1 r2 now Hb. cbn [Core.step]. unfold Core.execute.
    rewrite Hb. split; reflexivity.
  - intros s e now s' ret H Hnc.
    destruct (step_return_cases s s' e now _ H)
      as [(_ & -> & _) | [(s0 & p & r' & -> & _)
                         | (s0 & p & msg & l & _ & _ & _ & Hw & Hw0 & _)]].
    + reflexivity.
    + now specialize (Hnc r').
    + rewrite Hw. cbn. now rewrite Hw0.
Qed.

(** After three failures of the reasoning service, an unknown command. *)
Lemma C10_completed_call_resets_counter_witness :
  Core.consecutiveErrors
    (Core.bot (Core.world
       (fst (Core.step
               {| Core.world := {| Core.bot := after_three_failures; Core.wire := [] |};
                  Core.isBusy := false; Core.inflight := None;
                  Core.abandoned := []; Core.invoked := 0 |}
               (Core.Execute (plan_of "fly") 0 0) 4)))) = 0.
Proof.
  apply (proj1 C10_completed_call_resets_counter
           {| Core.world := {| Core.bot := after_three_failures; Core.wire := [] |};
              Core.isBusy := false; Core.inflight := None;
              Core.abandoned := []; Core.invoked := 0 |}
           (Core.Execute (plan_of "fly") 0 0) 4 _
           (result false "Unknown command: fly")).
  reflexivity.
Defined.

(** ** Unknown commands *)

Lemma core_actions_miss (c : string) (args : list string) (r1 r2 : Q) :
  ~ In c Core.handler_names -> Core.is_inherited c = false ->
  Core.actions c args r1 r2 = None.
Proof.
  intros Hn Hi. unfold Core.actions.
  do 7 not_this_key Hn.
  not_this_key Hi.
  destruct (String.eqb_spec c "toString") as [-> | _];
    [vm_compute in Hi; discriminate |].
  destruct (String.eqb_spec c "isPrototypeOf") as [-> | _];
    [vm_compute in Hi; discriminate |].
  cbn [orb].
  not_this_key Hi.
  now rewrite Hi.
Qed.

Lemma broad_actions_miss (c : string) (args : list string) (ox oz : Q) :
  ~ In c Broad.handler_names -> Core.is_inherited c = false ->
  Broad.actions c args ox oz = None.
Proof.
  intros Hn Hi. unfold Broad.actions.
  do 8 not_this_key Hn.
  not_this_key Hi.
  destruct (String.eqb_spec c "toString") as [-> | _];
    [vm_compute in Hi; discriminate |].
  destruct (String.eqb_spec c "isPrototypeOf") as [-> | _];
    [vm_compute in Hi; discriminate |].
  cbn [orb].
  not_this_key Hi.
  now rewrite Hi.
Qed.

(** *** Tokens are in lower case *)

Lemma lower_char_no_capital (c : ascii) : JS.is_upper (JS.lower_char c) = false.
Proof. destruct c as [[] [] [] [] [] [] [] []]; reflexivity. Qed.

Lemma lower_no_capital (s : string) : no_capital (JS.toLowerCase s) = true.
Proof.
  unfold no_capital. induction s as [| c s IH]; [reflexivity |].
  cbn [JS.toLowerCase all]. now rewrite lower_char_no_capital, IH.
Qed.

Lemma all_app (p : ascii -> bool) (a b : string) :
  all p (a ++ b) = all p a && all p b.
Proof.
  induction a as [| c a IH]; [reflexivity |].
  cbn. now rewrite IH, andb_assoc.
Qed.

Lemma all_trimStart (p : ascii -> bool) (s : string) :
  all p s = true -> all p (JS.trimStart s) = true.
Proof.
  induction s as [| c s IH]; [reflexivity |]. intros H.
  cbn [JS.trimStart]. destruct (JS.is_space c); [| exact H].
  apply IH. cbn in H. now apply andb_true_iff in H.
Qed.

Lemma all_trimEnd (p : ascii -> bool) (s : string) :
  all p s = true -> all p (JS.trimEnd s) = true.
Proof.
  induction s as [| c s IH]; [reflexivity |]. intros H.
  cbn in H. apply andb_true_iff in H. destruct H as [Hc Hs].
  cbn [JS.trimEnd]. specialize (IH Hs).
  destruct (JS.trimEnd s) as [| d r].
  - destruct (JS.is_space c); [reflexivity | cbn; now rewrite Hc].
  - cbn [all]. cbn [all] in IH. now rewrite Hc.
Qed.

Lemma all_split_ws (p : ascii -> bool) (s : string) :
  forall cur insep,
    all p s = true -> all p cur = true ->
    Forall (fun t => all p t = true) (JS.split_ws_go s cur insep).
Proof.
  induction s as [| c s IH]; intros cur insep Hs Hcur; cbn [JS.split_ws_go].
  - now constructor.
  - cbn in Hs. apply andb_true_iff in Hs. destruct Hs as [Hc Hs].
    destruct (JS.is_space c).
    + destruct insep; [now apply IH |].
      constructor; [exact Hcur | now apply IH].
    + apply IH; [exact Hs |]. rewrite all_app, Hcur. cbn. now rewrite Hc.
Qed.

Lemma all_split_space (p : ascii -> bool) (s : string) :
  forall cur,
    all p s = true -> all p cur = true ->
    Forall (fun t => all p t = true) (JS.split_space_go s cur).
Proof.
  induction s as [| c s IH]; intros cur Hs Hcur; cbn [JS.split_space_go].
  - now constructor.
  - cbn in Hs. apply andb_true_iff in Hs. destruct Hs as [Hc Hs].
    destruct (Ascii.eqb c " ").
    + constructor; [exact Hcur | now apply IH].
    + apply IH; [exact Hs |]. rewrite all_app, Hcur. cbn. now rewrite Hc.
Qed.

Lemma core_token_no_capital (a : string) : no_capital (fst (Core.tokens a)) = true.
Proof.
  unfold Core.tokens, JS.split_ws, JS.trim.
  pose proof (all_split_ws (fun c => negb (JS.is_upper c))
                (JS.trimEnd (JS.trimStart (JS.toLowerCase a))) "" false
                (all_trimEnd _ _ (all_trimStart _ _ (lower_no_capital a))) eq_refl)
    as H.
  destruct (JS.split_ws_go _ _ _) as [| c args]; [reflexivity |].
  now inversion H.
Qed.

Lemma broad_token_no_capital (a : string) : no_capital (fst (Broad.tokens a)) = true.
Proof.
  unfold Broad.tokens, JS.split_space.
  pose proof (all_split_space (fun c => negb (JS.is_upper c))
                (JS.toLowerCase a) "" (lower_no_capital a) eq_refl) as H.
  destruct (JS.split_space_go _ _) as [| c args]; [reflexivity |].
  now inversion H.
Qed.

(** Of the names inherited from [Object.prototype], a token in lower case
    can only be 'constructor' or '__proto__'. *)
Lemma inherited_lower_case (c : string) :
  no_capital c = true -> c <> "constructor" -> c <> "__proto__" ->
  Core.is_inherited c = false.
Proof.
  intros Hlow H1 H2. apply not_true_is_false. intros Hi.
  unfold Core.is_inherited in Hi. apply existsb_exists in Hi.
  destruct Hi as (k & Hin & Hk). apply String.eqb_eq in Hk. subst k.
  unfold Core.inherited_keys in Hin. cbn [In] in Hin.
  repeat (destruct Hin as [<- | Hin];
          [first [congruence | vm_compute in Hlow; discriminate] |]).
  contradiction.
Qed.

(** C8, as stated, fails: the broad variant answers an unknown token with
    'Unknown action: ...'. *)
Lemma C8_unknown_as_stated_fails : ~ unknown_as_stated.
Proof.
  intros [_ H]. specialize (H "fly north" 0%Q 0%Q).
  assert (Hn : ~ In (fst (Broad.tokens "fly north")) Broad.handler_names).
  { vm_compute. intuition discriminate. }
  specialize (H Hn). vm_compute in H. discriminate.
Qed.

(** The token 'constructor' is not a handler of the table, yet the lookup
    finds the function inherited from [Object.prototype]: the call
    resolves to an empty object, and [execute] records a failure without
    message. *)
Lemma core_constructor_is_found :
  ~ In "constructor" Core.handler_names
  /\ Core.performAction "constructor" 0 0 = Core.Returns Core.no_fields
  /\ snd (Core.step (Core.new_Sys 0) (Core.Execute (plan_of "constructor") 0 0) 1)
     = Some (Core.Completed {| success := None; message := None |})
  /\ Core.performAction "__proto__" 0 0 = Core.Throws "actionFn is not a function".
Proof.
  split; [cbn; intuition discriminate |].
  repeat split.
Qed.

(** C8, amended.  Let the leading token of the action be none of the
    handlers of the table and neither 'constructor' nor '__proto__', the
    two names in lower case that the table inherits from
    [Object.prototype].  Then [performAction] resolves at once to
    [success:false] with the message 'Unknown command: ' and the token in
    the core variant, 'Unknown action: ' and the token in the broad
    variant.  A call of [execute] that is not turned away by the busy guard
    returns that result, calls no handler and writes nothing to the
    session. *)
Theorem C8_unknown_token :
  (forall a r1 r2,
      let c := fst (Core.tokens a) in
      ~ In c Core.handler_names -> c <> "constructor" -> c <> "__proto__" ->
      Core.performAction a r1 r2
      = Core.Returns (result false ("Unknown command: " ++ c))
      /\ forall s p now,
           action p = a -> Core.isBusy s = false ->
           let out := Core.step s (Core.Execute p r1 r2) now in
           option_map Core.returned (snd out)
           = Some {| success := Some false;
                     message := Some ("Unknown command: " ++ c) |}
           /\ Core.wire (Core.world (fst out)) = Core.wire (Core.world s)
           /\ Core.invoked (fst out) = Core.invoked s)
  /\ (forall a ox oz,
      let c := fst (Broad.tokens a) in
      ~ In c Broad.handler_names -> c <> "constructor" -> c <> "__proto__" ->
      Broad.performAction a ox oz
      = Broad.Returns (result false ("Unknown action: " ++ c))
      /\ forall s p now,
           action p = a ->
           let out := Broad.step s (Broad.Execute p ox oz) now in
           option_map Broad.returned (snd out)
           = Some {| success := Some false;
                     message := Some ("Unknown action: " ++ c) |}
           /\ Broad.wire (Broad.world (fst out)) = Broad.wire (Broad.world s)
           /\ Broad.invoked (fst out) = Broad.invoked s).
Proof.
  split.
  - intros a r1 r2 c Hn Hc1 Hc2.
    assert (Hi : Core.is_inherited c = false)
      by (apply inherited_lower_case;
          [apply core_token_no_capital | assumption | assumption]).
    assert (Hp : Core.performAction a r1 r2
                 = Core.Returns (result false ("Unknown command: " ++ c))).
    { unfold Core.performAction. subst c.
      destruct (Core.tokens a) as [c args]. cbn [fst] in *.
      now rewrite core_actions_miss. }
    split; [exact Hp |].
    intros s p now Ha Hb. cbn [Core.step]. unfold Core.execute.
    rewrite Hb, Ha, Hp. repeat split.
  - intros a ox oz c Hn Hc1 Hc2.
    assert (Hi : Core.is_inherited c = false)
      by (apply inherited_lower_case;
          [apply broad_token_no_capital | assumption | assumption]).
    assert (Hp : Broad.performAction a ox oz
                 = Broad.Returns (result false ("Unknown action: " ++ c))).
    { unfold Broad.performAction. subst c.
      destruct (Broad.tokens a) as [c args]. cbn [fst] in *.
      now rewrite broad_actions_miss. }
    split; [exact Hp |].
    intros s p now Ha. cbn [Broad.step]. unfold Broad.execute.
    rewrite Ha, Hp. repeat split.
Qed.

(** The action 'Fly to the moon' in the two variants. *)
Lemma C8_unknown_token_witness :
  Core.performAction "Fly to the moon" 0 0
  = Core.Returns (result false "Unknown command: fly")
  /\ Broad.performAction "Fly to the moon" 0 0
     = Broad.Returns (result false "Unknown action: fly").
Proof.
  split.
  - apply (proj1 C8_unknown_token "Fly to the moon" 0%Q 0%Q).
    + cbn. intuition discriminate.
    + discriminate.
    + discriminate.
  - apply (proj2 C8_unknown_token "Fly to the moon" 0%Q 0%Q).
    + cbn. intuition discriminate.
    + discriminate.
    + discriminate.
Defined.

(** ** Movement *)

Lemma run_all_cons (seg : Core.Segment) (segs : list Core.Segment) (w : Core.World) :
  run_all (seg :: segs) w = run_all segs (Core.run seg w).
Proof. reflexivity. Qed.







(** A call that gets past the guard and finds a handler with something to
    await: the first segment runs within the call, the rest is in flight. *)
Lemma execute_suspends (s : Core.Sys) (p : Plan) (r1 r2 : Q) (now : Z)
    (h : Core.Handler) (first : Core.Segment) (rest : list Core.Segment) :
  Core.isBusy s = false ->
  Core.performAction (action p) r1 r2 = Core.Runs h ->
  Core.segments h = first :: rest ->
  Core.execute s p r1 r2 now
  = ({| Core.world := Core.run first (Core.world s);
        Core.isBusy := true;
        Core.inflight := Some {| Core.if_plan := p; Core.if_rest := rest;
                                 Core.if_outcome := Core.outcome h |};
        Core.abandoned := Core.abandoned s;
        Core.invoked := S (Core.invoked s) |}, None).
Proof.
  intros Hb Hp Hs. unfold Core.execute. rewrite Hb, Hp, Hs. reflexivity.
Qed.






(** ** The decision engine *)

(** C3, as stated, fails: with the counter at six, a cycle still sends its
    request, and when the service answers, the answer is used. *)
Lemma C3_breaker_as_stated_fails : ~ breaker_as_stated.
Proof.
  intros H.
  assert (Hc : Core.maxConsecutiveErrors < Core.consecutiveErrors (after_failures 6))
    by (vm_compute; reflexivity).
  destruct (H {| Core.conversationHistory := [] |} (after_failures 6)
              (Core.Answer 200 (Some "ACTION: move north 5")) 7 Hc) as [Hr _].
  vm_compute in Hr. discriminate.
Qed.

(** C3, amended.  Every decision cycle sends one request to the reasoning
    service, whatever the counter.  When the call fails, the counter goes
    up by one and the plan is the deterministic fallback if the counter is
    now above the ceiling of five, the holding action 'wait' otherwise; the
    fallback is 'wait' below ten health, 'mine wood' in the early phase,
    'explore' otherwise.  When the call succeeds, the plan is the parsed
    answer and the counter is left as it is: it goes back to zero when a
    call of [execute] reaches the end of its [try] block. *)
Theorem C3_breaker_on_failure_only :
  (forall ai st reply now,
      Core.th_requests (Core.think ai st reply now) = [Core.getContextForAI st])
  /\ (forall ai st reply now,
      Core.callGemini reply = None ->
      let t := Core.think ai st reply now in
      Core.consecutiveErrors (Core.th_state t) = Core.consecutiveErrors st + 1
      /\ (Core.maxConsecutiveErrors < Core.consecutiveErrors st + 1 ->
          Core.th_plan t = Core.safeFallback (Core.th_state t))
      /\ (Core.consecutiveErrors st + 1 <= Core.maxConsecutiveErrors ->
          Core.th_plan t = {| action := "wait"; reasoning := "Error recovery" |}))
  /\ (forall st,
      (Core.health st < 10 -> action (Core.safeFallback st) = "wait")
      /\ (10 <= Core.health st -> Core.gamePhase st = early ->
          action (Core.safeFallback st) = "mine wood")
      /\ (10 <= Core.health st -> Core.gamePhase st <> early ->
          action (Core.safeFallback st) = "explore"))
  /\ (forall ai st reply now response,
      Core.callGemini reply = Some response ->
      let t := Core.think ai st reply now in
      Core.th_plan t = Core.parseAction response /\ Core.th_state t = st)
  /\ (forall s e now s' r,
      Core.step s e now = (s', Some (Core.Completed r)) ->
      Core.consecutiveErrors (Core.bot (Core.world s')) = 0).
Proof.
  split; [| split; [| split; [| split]]].
  - intros ai st reply now. unfold Core.think.
    destruct (Core.callGemini reply); reflexivity.
  - intros ai st reply now Hf t. subst t. unfold Core.think. rewrite Hf.
    cbn [Core.th_state Core.th_plan Core.set_consecutiveErrors Core.consecutiveErrors].
    split; [reflexivity |]. split; intros H.
    + apply Z.ltb_lt in H. now rewrite H.
    + apply Z.ltb_ge in H. now rewrite H.
  - intros st. unfold Core.safeFallback. repeat split.
    + intros H. apply Z.ltb_lt in H. now rewrite H.
    + intros H Hp. apply Z.ltb_ge in H. rewrite H, Hp. reflexivity.
    + intros H Hp. apply Z.ltb_ge in H. rewrite H.
      destruct (Core.gamePhase st); try reflexivity. congruence.
  - intros ai st reply now response Hs t. subst t. unfold Core.think.
    rewrite Hs. split; reflexivity.
  - intros s e now s' r H.
    destruct (step_return_cases s s' e now _ H)
      as [(Hr & _) | [(s0 & p & r' & _ & ->) | (s0 & p & msg & l & Hr & _)]];
      [discriminate | reflexivity | discriminate].
Qed.

(** The sixth failure in a row, in the early phase at full health. *)
Lemma C3_breaker_on_failure_only_witness :
  Core.th_plan (Core.think {| Core.conversationHistory := [] |} (after_failures 5)
                  Core.Unreachable 6)
  = Core.safeFallback
      (Core.th_state (Core.think {| Core.conversationHistory := [] |}
                        (after_failures 5) Core.Unreachable 6))
  /\ action (Core.safeFallback (after_failures 6)) = "mine wood".
Proof.
  split.
  - apply (proj1 (proj2 C3_breaker_on_failure_only)
             {| Core.conversationHistory := [] |} (after_failures 5)
             Core.Unreachable 6 eq_refl).
    vm_compute. reflexivity.
  - apply (proj1 (proj2 (proj2 C3_breaker_on_failure_only)) (after_failures 6)).
    + vm_compute. discriminate.
    + reflexivity.
Defined.

(** ** The parser of replies *)

Lemma lower_append (a b : string) :
  JS.toLowerCase (a ++ b) = JS.toLowerCase a ++ JS.toLowerCase b.
Proof. induction a as [| c a IH]; cbn; [reflexivity | now rewrite IH]. Qed.

Lemma lower_length (a : string) : String.length (JS.toLowerCase a) = String.length a.
Proof. induction a as [| c a IH]; cbn; [reflexivity | now rewrite IH]. Qed.


Lemma ci_eqb_lower (c d : ascii) :
  Regex.ci_eqb c d = true <-> JS.lower_char c = JS.lower_char d.
Proof. unfold Regex.ci_eqb. apply Ascii.eqb_eq. Qed.

Lemma prepend_prepend (a b : string) (r : option Regex.found) :
  prepend a (prepend b r) = prepend (a ++ b) r.
Proof.
  destruct r as [[m cap] |]; cbn; [| reflexivity].
  now rewrite append_assoc.
Qed.

Lemma consume_prepend (c : ascii) (r : option Regex.found) :
  Regex.consume c r = prepend (String c "") r.
Proof. destruct r as [[m cap] |]; reflexivity. Qed.

(** What [strip_ci] splits off. *)
Lemma strip_ci_spec (w : string) :
  forall t t1 t2,
    strip_ci w t = Some (t1, t2)
    <-> t = t1 ++ t2 /\ JS.toLowerCase t1 = JS.toLowerCase w.
Proof.
  induction w as [| c w IH]; intros t t1 t2; cbn [strip_ci].
  - split.
    + intros H. injection H as <- <-. split; reflexivity.
    + intros [-> H]. destruct t1; [reflexivity | discriminate].
  - destruct t as [| d t].
    + split; [discriminate |]. intros [H1 H2].
      destruct t1; [discriminate H2 | discriminate H1].
    + destruct (Regex.ci_eqb c d) eqn:Hcd.
      * apply ci_eqb_lower in Hcd.
        destruct (strip_ci w t) as [[u1 u2] |] eqn:Hs.
        -- apply IH in Hs. destruct Hs as [-> Hl]. split.
           ++ intros H. injection H as <- <-. cbn. split; [reflexivity |].
              now rewrite Hl, Hcd.
           ++ intros [H1 H2]. destruct t1 as [| e t1]; [discriminate H2 |].
              cbn in H1, H2. injection H1 as <- H1. injection H2 as _ H2.
              assert (Hs : strip_ci w (u1 ++ u2) = Some (t1, t2))
                by (apply IH; split; assumption).
              assert (Hs' : strip_ci w (u1 ++ u2) = Some (u1, u2))
                by (apply IH; split; [reflexivity | assumption]).
              congruence.
        -- split; [discriminate |]. intros [H1 H2].
           destruct t1 as [| e t1]; [discriminate H2 |].
           cbn in H1, H2. injection H1 as <- H1. injection H2 as _ H2.
           assert (Hs' : strip_ci w t = Some (t1, t2))
             by (apply IH; split; assumption).
           congruence.
      * split; [discriminate |]. intros [H1 H2].
        destruct t1 as [| e t1]; [discriminate H2 |].
        cbn in H1, H2. injection H1 as <- H1. injection H2 as H2 _.
        assert (Ht : Regex.ci_eqb c d = true) by (apply ci_eqb_lower; congruence).
        congruence.
Qed.

(** The literal part of a pattern consumes a prefix that equals it up to
    case; the rest of the pattern goes on after it. *)
Lemma match_here_lits (w : string) (re : list Regex.atom) :
  forall t,
    Regex.match_here (Regex.lits w ++ re) t
    = match strip_ci w t with
      | Some (t1, t2) => prepend t1 (Regex.match_here re t2)
      | None => None
      end.
Proof.
  induction w as [| c w IH]; intros t; cbn [Regex.lits app strip_ci].
  - destruct (Regex.match_here re t) as [[m cap] |]; reflexivity.
  - cbn [Regex.match_here]. destruct t as [| d t]; [reflexivity |].
    destruct (Regex.ci_eqb c d); [| reflexivity].
    rewrite IH. destruct (strip_ci w t) as [[t1 t2] |]; [| reflexivity].
    rewrite consume_prepend, prepend_prepend. reflexivity.
Qed.

Lemma prepend_empty (r : option Regex.found) : prepend "" r = r.
Proof. destruct r as [[m cap] |]; reflexivity. Qed.


(** Whatever a greedy run matches is a run of the class followed by a
    match of the rest of the pattern. *)
Lemma star_sound (cls : ascii -> bool) (k : string -> option Regex.found) :
  forall s f,
    Regex.star cls k s = Some f ->
    exists run s' f',
      s = run ++ s' /\ all cls run = true /\ k s' = Some f'
      /\ Some f = prepend run (Some f').
Proof.
  induction s as [| d s IH]; intros f H; cbn [Regex.star] in H.
  - exists "", "", f. repeat split; [exact H | now rewrite prepend_empty].
  - destruct (cls d) eqn:Hd.
    + destruct (Regex.star cls k s) as [f0 |] eqn:Hs.
      * destruct (IH f0 eq_refl) as (run & s' & f' & -> & Hall & Hk & Hf).
        exists (String d run), s', f'. repeat split.
        -- cbn. now rewrite Hd, Hall.
        -- exact Hk.
        -- rewrite <- H, Hf. destruct f' as [m cap]. reflexivity.
      * exists "", (String d s), f.
        repeat split; [exact H | now rewrite prepend_empty].
    + exists "", (String d s), f.
      repeat split; [exact H | now rewrite prepend_empty].
Qed.

Lemma plus_sound (cls : ascii -> bool) (k : string -> option Regex.found) :
  forall s f,
    Regex.plus cls k s = Some f ->
    exists run s' f',
      s = run ++ s' /\ run <> "" /\ all cls run = true /\ k s' = Some f'
      /\ Some f = prepend run (Some f').
Proof.
  intros [| d s] f H; cbn [Regex.plus] in H; [discriminate |].
  destruct (cls d) eqn:Hd; [| discriminate].
  destruct (Regex.star cls k s) as [f0 |] eqn:Hs; [| discriminate].
  destruct (star_sound cls k s f0 Hs) as (run & s' & f' & -> & Hall & Hk & Hf).
  exists (String d run), s', f'. repeat split.
  - discriminate.
  - cbn. now rewrite Hd, Hall.
  - exact Hk.
  - rewrite <- H. destruct f' as [m cap]. cbn in Hf. injection Hf as ->.
    reflexivity.
Qed.





Lemma search_here (re : list Regex.atom) (s : string) (f : Regex.found) :
  Regex.match_here re s = Some f -> Regex.search re s = Some f.
Proof. intros H. destruct s; cbn [Regex.search]; now rewrite H. Qed.


(** What a search finds is a match at some position of the text. *)
Lemma search_sound (re : list Regex.atom) :
  forall r f,
    Regex.search re r = Some f ->
    exists pre t, r = pre ++ t /\ Regex.match_here re t = Some f.
Proof.
  induction r as [| c r IH]; intros f H; cbn [Regex.search] in H.
  - destruct (Regex.match_here re "") eqn:Hm; [| discriminate].
    injection H as <-. now exists "", "".
  - destruct (Regex.match_here re (String c r)) eqn:Hm.
    + injection H as <-. now exists "", (String c r).
    + destruct (IH f H) as (pre & t & -> & Ht).
      now exists (String c pre), t.
Qed.

















(** Soundness of the verb rule: what the pattern of a verb finds. *)
Lemma verb_sound (v r m c : string) :
  Regex.search (Regex.verb_phrase v) r = Some (m, c) ->
  exists pre v' ws args tail,
    r = pre ++ m ++ tail
    /\ m = v' ++ ws ++ args
    /\ JS.toLowerCase v' = JS.toLowerCase v
    /\ ws <> "" /\ all Regex.whitespace ws = true
    /\ args <> "" /\ all Regex.not_newline args = true.
Proof.
  intros H. apply search_sound in H. destruct H as (pre & t & -> & H).
  unfold Regex.verb_phrase in H. rewrite match_here_lits in H.
  destruct (strip_ci v t) as [[v' t2] |] eqn:Hs; [| discriminate].
  apply strip_ci_spec in Hs. destruct Hs as [-> Hv].
  cbn [Regex.match_here] in H.
  destruct (Regex.plus Regex.whitespace
              (Regex.plus Regex.not_newline (fun _ => Some ("", ""))) t2)
    as [[m1 c1] |] eqn:Hplus; [| discriminate].
  cbn [prepend] in H. injection H as <- <-.
  apply plus_sound in Hplus.
  destruct Hplus as (ws & s1 & [m2 c2] & -> & Hwne & Hws & Hk & Hf).
  cbn [prepend] in Hf. injection Hf as -> ->.
  apply plus_sound in Hk.
  destruct Hk as (args & tail & [m3 c3] & -> & Hane & Hargs & Hk & Hf).
  injection Hk as <- <-. cbn [prepend] in Hf. injection Hf as -> ->.
  rewrite append_nil_r.
  exists pre, v', ws, args, tail. repeat split; try assumption.
  now rewrite !append_assoc.
Qed.

(** The loop over the verbs answers with the first verb of the list whose
    pattern is found. *)
Lemma scan_commands_spec (r a : string) :
  forall cmds,
    Core.scan_commands cmds r = Some a
    <-> exists before v after m c,
          cmds = (before ++ v :: after)%list
          /\ (forall u, In u before -> Regex.search (Regex.verb_phrase u) r = None)
          /\ Regex.search (Regex.verb_phrase v) r = Some (m, c)
          /\ a = JS.trim m.
Proof.
  induction cmds as [| u cmds IH]; cbn [Core.scan_commands].
  - split; [discriminate |].
    intros (before & v & after & m & c & H & _). destruct before; discriminate.
  - destruct (Regex.search (Regex.verb_phrase u) r) as [[m c] |] eqn:Hu.
    + split.
      * intros H. injection H as <-.
        exists [], u, cmds, m, c. repeat split; [now intros ? [] | exact Hu].
      * intros (before & v & after & m' & c' & H & Hnone & Hv & ->).
        destruct before as [| u' before].
        -- injection H as -> ->. congruence.
        -- injection H as -> ->. rewrite (Hnone u' (or_introl eq_refl)) in Hu.
           discriminate.
    + rewrite IH. split.
      * intros (before & v & after & m & c & -> & Hnone & Hv & ->).
        exists (u :: before), v, after, m, c. repeat split; try assumption.
        intros u' [<- | Hin]; [exact Hu | now apply Hnone].
      * intros (before & v & after & m & c & H & Hnone & Hv & ->).
        destruct before as [| u' before].
        -- injection H as -> ->. congruence.
        -- injection H as -> ->. exists before, v, after, m, c.
           repeat split; try assumption. intros u Hin. apply Hnone. now right.
Qed.





(** * Further properties of the code *)

(** ** What the handlers leave alone *)

Lemma quiet_move_step (dir : Core.Dir) (stepSize : JS.num) :
  quiet (Core.move_step dir stepSize).
Proof. intros w. repeat split. Qed.

Lemma quiet_jump_step (dir : Core.Dir) (up : bool) : quiet (Core.jump_step dir up).
Proof. intros w. repeat split. Qed.

Lemma Forall_repeat {A : Type} (P : A -> Prop) (a : A) (n : nat) :
  P a -> Forall P (repeat a n).
Proof. intros H. induction n; cbn; constructor; assumption. Qed.

Lemma quiet_move (direction : option string) (blocks : Z) :
  Forall quiet (Core.segments (Core.move direction blocks)).
Proof.
  unfold Core.move. destruct (Core.directions direction) as [dir |].
  - cbn [Core.segments]. apply Forall_repeat, quiet_move_step.
  - constructor.
Qed.

Lemma quiet_jumpMove (direction : option string) (blocks : Z) :
  Forall quiet (Core.segments (Core.jumpMove direction blocks)).
Proof.
  unfold Core.jumpMove. destruct (Core.directions direction) as [dir |].
  - cbn [Core.segments]. induction (Z.to_nat blocks) as [| n IH]; cbn.
    + constructor.
    + constructor; [apply quiet_jump_step |].
      constructor; [apply quiet_jump_step | exact IH].
  - constructor.
Qed.

Lemma quiet_mine (target : string) : Forall quiet (Core.segments (Core.mine target)).
Proof.
  unfold Core.mine. cbn [Core.segments repeat].
  repeat (constructor; [intros w; repeat split |]). constructor.
Qed.

(** Whatever handler the table runs, its segments are quiet. *)
Lemma quiet_handlers (a : string) (r1 r2 : Q) (h : Core.Handler) :
  Core.performAction a r1 r2 = Core.Runs h -> Forall quiet (Core.segments h).
Proof.
  unfold Core.performAction. destruct (Core.tokens a) as [c args].
  unfold Core.actions.
  repeat match goal with
         | |- context [if ?b then _ else _] => destruct b
         end;
    intros H; try discriminate; injection H as <-.
  - apply quiet_move.
  - apply quiet_jumpMove.
  - apply quiet_mine.
  - unfold Core.explore. apply quiet_move.
  - repeat constructor.
  - repeat constructor.
  - repeat constructor.
Qed.

Lemma resume_abandoned_quiet (l : list (list Core.Segment)) :
  forall i w,
    Forall (Forall quiet) l ->
    Forall (Forall quiet) (fst (Core.resume_abandoned i l w))
    /\ (let st := Core.bot w in
        let st' := Core.bot (snd (Core.resume_abandoned i l w)) in
        Core.actionHistory st' = Core.actionHistory st
        /\ Core.consecutiveErrors st' = Core.consecutiveErrors st
        /\ Core.gamePhase st' = Core.gamePhase st
        /\ Core.inventory st' = Core.inventory st
        /\ Core.health st' = Core.health st
        /\ Core.entityId st' = Core.entityId st).
Proof.
  induction l as [| h more IH]; intros i w Hall.
  - destruct i; cbn; repeat split; constructor.
  - inversion Hall as [| ? ? Hh Hmore]; subst.
    destruct i as [| j].
    + destruct h as [| seg segs]; cbn [Core.resume_abandoned fst snd].
      * split; [exact Hmore | repeat split].
      * inversion Hh as [| ? ? Hseg Hsegs]; subst.
        split; [constructor; assumption | exact (Hseg w)].
    + destruct (IH j w Hmore) as [H1 H2].
      destruct h as [| seg segs]; cbn [Core.resume_abandoned];
        destruct (Core.resume_abandoned j more w) as [more' w'];
        cbn [fst snd] in *; (split; [constructor; assumption | exact H2]).
Qed.

(** The transitions keep the segments still to run quiet. *)
Lemma step_keeps_quiet (s : Core.Sys) (e : Core.Event) (now : Z) :
  quiet_sys s -> quiet_sys (fst (Core.step s e now)).
Proof.
  intros [Hin Hab]. unfold quiet_sys.
  destruct e as [p r1 r2 | | | msg | i | items | h | id attrs | pos id rot | id pos];
    cbn [Core.step].
  - unfold Core.execute. destruct (Core.isBusy s); [split; assumption |].
    destruct (Core.performAction (action p) r1 r2) as [msg | r | h] eqn:Hp.
    + split; [discriminate | exact Hab].
    + split; [discriminate | exact Hab].
    + apply quiet_handlers in Hp.
      destruct (Core.segments h) as [| first rest]; cbn [fst].
      * split; [discriminate | exact Hab].
      * split; [| exact Hab].
        intros f Hf. cbn in Hf. injection Hf as <-. cbn.
        now inversion Hp.
  - destruct (Core.inflight s) as [f |] eqn:Hf;
      [| cbn [fst]; split; [intros f Hf'; congruence | exact Hab]].
    specialize (Hin f eq_refl).
    destruct (Core.if_rest f) as [| seg rest]; cbn [fst].
    + split; [discriminate | exact Hab].
    + split; [| exact Hab].
      intros f' Hf'. cbn in Hf'. injection Hf' as <-. cbn. now inversion Hin.
  - destruct (Core.inflight s) as [f |] eqn:Hf;
      [| cbn [fst]; split; [intros f Hf'; congruence | exact Hab]].
    cbn [fst]. split; [discriminate |]. cbn.
    apply Forall_app. split; [exact Hab |]. constructor; [| constructor].
    now apply Hin.
  - destruct (Core.inflight s) as [f |] eqn:Hf;
      [| cbn [fst]; split; [intros f Hf'; congruence | exact Hab]].
    cbn [fst]. split; [discriminate | exact Hab].
  - destruct (resume_abandoned_quiet (Core.abandoned s) i (Core.world s) Hab)
      as [Hq _].
    destruct (Core.resume_abandoned i (Core.abandoned s) (Core.world s)) as [l w].
    cbn [fst] in *. split; assumption.
  - now split.
  - now split.
  - now split.
  - now split.
  - now split.
Qed.

Lemma steps_keep_quiet (es : list (Core.Event * Z)) :
  forall s, quiet_sys s -> quiet_sys (Core.steps s es).
Proof.
  induction es as [| [e now] es IH]; intros s H; [exact H |].
  cbn [Core.steps]. apply IH. now apply step_keeps_quiet.
Qed.

Lemma new_Sys_quiet (now : Z) : quiet_sys (Core.new_Sys now).
Proof. split; [discriminate | constructor]. Qed.

(** ** Events of the session *)

Lemma server_event_effect (s : Core.Sys) (e : Core.Event) (now : Z) :
  is_server_event e = true ->
  snd (Core.step s e now) = None
  /\ (let s' := fst (Core.step s e now) in
      Core.isBusy s' = Core.isBusy s
      /\ Core.inflight s' = Core.inflight s
      /\ Core.abandoned s' = Core.abandoned s
      /\ Core.invoked s' = Core.invoked s
      /\ Core.wire (Core.world s') = Core.wire (Core.world s)
      /\ Core.actionHistory (Core.bot (Core.world s'))
         = Core.actionHistory (Core.bot (Core.world s))
      /\ Core.consecutiveErrors (Core.bot (Core.world s'))
         = Core.consecutiveErrors (Core.bot (Core.world s))).
Proof.
  destruct e as [p r1 r2 | | | msg | i | items | h | id attrs | pos id rot | id pos];
    try discriminate; intros _; cbn [Core.step fst snd];
    (split; [reflexivity |]); cbn zeta;
    unfold Core.set_world, Core.on_bot;
    cbn [Core.isBusy Core.inflight Core.abandoned Core.invoked Core.world Core.wire
         Core.bot];
    repeat (split; [reflexivity |]).
  - split; reflexivity.
  - destruct h; split; reflexivity.
  - unfold Core.on_update_attributes. destruct attrs as [l |]; [| split; reflexivity].
    destruct (id =? _); [| split; reflexivity].
    destruct (find _ l); split; reflexivity.
  - unfold Core.on_move_player. destruct pos; [| split; reflexivity].
    destruct (id =? _); split; reflexivity.
  - unfold Core.on_start_game. destruct (id =? 0), pos; split; reflexivity.
Qed.

(** ** One history entry for each call that ends *)

Lemma push_bounded_length {A : Type} (cap : nat) (h : list A) (e : A) :
  (length h <= cap)%nat -> (length (push_bounded cap h e) <= cap)%nat.
Proof. intros H. rewrite push_bounded_slice, slice_last_length. lia. Qed.

Lemma step_history_cases (s : Core.Sys) (e : Core.Event) (now : Z) :
  quiet_sys s ->
  let out := Core.step s e now in
  match snd out with
  | Some ret =>
      exists p,
        ending_plan s e = Some p
        /\ Core.actionHistory (Core.bot (Core.world (fst out)))
           = match entry_for (Core.bot (Core.world s)) p ret now with
             | Some en =>
                 push_bounded Core.history_capacity
                   (Core.actionHistory (Core.bot (Core.world s))) en
             | None => Core.actionHistory (Core.bot (Core.world s))
             end
  | None =>
      Core.actionHistory (Core.bot (Core.world (fst out)))
      = Core.actionHistory (Core.bot (Core.world s))
  end.
Proof.
  intros [Hin Hab]. cbn zeta.
  destruct (is_server_event e) eqn:Hs.
  { destruct (server_event_effect s e now Hs) as [-> H]. cbn zeta in H. apply H. }
  destruct e as [p r1 r2 | | | msg | i | items | h | id attrs | pos id rot | id pos];
    try discriminate; cbn [Core.step ending_plan].
  - unfold Core.execute. destruct (Core.isBusy s).
    { exists p. split; reflexivity. }
    destruct (Core.performAction (action p) r1 r2) as [msg | r | h] eqn:Hp.
    + exists p. split; reflexivity.
    + exists p. split; reflexivity.
    + apply quiet_handlers in Hp.
      destruct (Core.segments h) as [| first rest]; cbn [fst snd].
      * exists p. split; reflexivity.
      * inversion Hp as [| ? ? Hfirst _]; subst. apply (Hfirst (Core.world s)).
  - destruct (Core.inflight s) as [f |] eqn:Hf; [| reflexivity].
    specialize (Hin f eq_refl).
    destruct (Core.if_rest f) as [| seg rest]; cbn [fst snd].
    + exists (Core.if_plan f). split; reflexivity.
    + inversion Hin as [| ? ? Hseg _]; subst. apply (Hseg (Core.world s)).
  - destruct (Core.inflight s) as [f |] eqn:Hf; [| reflexivity].
    cbn [fst snd]. exists (Core.if_plan f). split; reflexivity.
  - destruct (Core.inflight s) as [f |] eqn:Hf; [| reflexivity].
    cbn [fst snd]. exists (Core.if_plan f). split; reflexivity.
  - destruct (resume_abandoned_quiet (Core.abandoned s) i (Core.world s) Hab)
      as [_ Hq].
    destruct (Core.resume_abandoned i (Core.abandoned s) (Core.world s)) as [l w].
    cbn [fst snd] in *. apply Hq.
Qed.

Lemma reachable_quiet (now0 : Z) (es : list (Core.Event * Z)) :
  quiet_sys (Core.steps (Core.new_Sys now0) es).
Proof. apply steps_keep_quiet, new_Sys_quiet. Qed.

Lemma step_history_bound (s : Core.Sys) (e : Core.Event) (now : Z) :
  quiet_sys s ->
  (length (Core.actionHistory (Core.bot (Core.world s))) <= Core.history_capacity)%nat ->
  (length (Core.actionHistory (Core.bot (Core.world (fst (Core.step s e now)))))
   <= Core.history_capacity)%nat.
Proof.
  intros Hq Hl. pose proof (step_history_cases s e now Hq) as H. cbn zeta in H.
  destruct (snd (Core.step s e now)) as [ret |].
  - destruct H as (p & _ & ->).
    destruct (entry_for _ p ret now); [now apply push_bounded_length | exact Hl].
  - now rewrite H.
Qed.

Lemma steps_history_bound (es : list (Core.Event * Z)) :
  forall s,
    quiet_sys s ->
    (length (Core.actionHistory (Core.bot (Core.world s))) <= Core.history_capacity)%nat ->
    (length (Core.actionHistory (Core.bot (Core.world (Core.steps s es))))
     <= Core.history_capacity)%nat.
Proof.
  induction es as [| [e now] es IH]; intros s Hq Hl; [exact Hl |].
  cbn [Core.steps]. apply IH.
  - now apply step_keeps_quiet.
  - now apply step_history_bound.
Qed.


(** X2.  In every run of the executor from its creation, whatever the
    calls, the handlers, the timeouts and the events of the session, the
    history holds at most a hundred entries. *)
Theorem history_bounded_in_every_run (now0 : Z) (es : list (Core.Event * Z)) :
  (length (Core.actionHistory (Core.bot (Core.world (Core.steps (Core.new_Sys now0) es))))
   <= 100)%nat.
Proof.
  apply (steps_history_bound es (Core.new_Sys now0)).
  - apply new_Sys_quiet.
  - cbn. lia.
Qed.

(** X3.  The handlers of the events of the session write to the state
    store only: they send nothing, they leave the busy flag, the call in
    flight, the history and the error counter alone, and they end no call.
    A 'move_player' or 'update_attributes' packet for another entity
    changes nothing at all, not even the time stamp. *)
Theorem server_events_leave_executor_alone :
  (forall s e now,
      is_server_event e = true ->
      snd (Core.step s e now) = None
      /\ (let s' := fst (Core.step s e now) in
          Core.isBusy s' = Core.isBusy s
          /\ Core.inflight s' = Core.inflight s
          /\ Core.abandoned s' = Core.abandoned s
          /\ Core.invoked s' = Core.invoked s
          /\ Core.wire (Core.world s') = Core.wire (Core.world s)
          /\ Core.actionHistory (Core.bot (Core.world s'))
             = Core.actionHistory (Core.bot (Core.world s))
          /\ Core.consecutiveErrors (Core.bot (Core.world s'))
             = Core.consecutiveErrors (Core.bot (Core.world s))))
  /\ (forall s pos id rot now,
      id <> Core.entityId (Core.bot (Core.world s)) ->
      fst (Core.step s (Core.MovePlayer pos id rot) now) = s)
  /\ (forall s id attrs now,
      id <> Core.entityId (Core.bot (Core.world s)) ->
      fst (Core.step s (Core.UpdateAttributes id attrs) now) = s).
Proof.
  split; [exact server_event_effect | split].
  - intros s pos id rot now Hid. apply Z.eqb_neq in Hid.
    destruct s as [[b w] busy f l n].
    cbn [Core.world Core.bot] in Hid.
    cbn [Core.step fst]. unfold Core.set_world, Core.on_bot, Core.on_move_player.
    cbn [Core.world Core.bot Core.wire Core.isBusy Core.inflight Core.abandoned
         Core.invoked].
    rewrite Hid. destruct pos; reflexivity.
  - intros s id attrs now Hid. apply Z.eqb_neq in Hid.
    destruct s as [[b w] busy f l n].
    cbn [Core.world Core.bot] in Hid.
    cbn [Core.step fst].
    unfold Core.set_world, Core.on_bot, Core.on_update_attributes.
    cbn [Core.world Core.bot Core.wire Core.isBusy Core.inflight Core.abandoned
         Core.invoked].
    rewrite Hid. destruct attrs; reflexivity.
Qed.

(** A health packet and a position packet for another entity on a fresh
    executor. *)
Lemma server_events_leave_executor_alone_witness :
  (snd (Core.step (Core.new_Sys 0) (Core.SetHealth (Some 7)) 1) = None
   /\ (let s' := fst (Core.step (Core.new_Sys 0) (Core.SetHealth (Some 7)) 1) in
       Core.isBusy s' = Core.isBusy (Core.new_Sys 0)
       /\ Core.inflight s' = Core.inflight (Core.new_Sys 0)
       /\ Core.abandoned s' = Core.abandoned (Core.new_Sys 0)
       /\ Core.invoked s' = Core.invoked (Core.new_Sys 0)
       /\ Core.wire (Core.world s') = Core.wire (Core.world (Core.new_Sys 0))
       /\ Core.actionHistory (Core.bot (Core.world s'))
          = Core.actionHistory (Core.bot (Core.world (Core.new_Sys 0)))
       /\ Core.consecutiveErrors (Core.bot (Core.world s'))
          = Core.consecutiveErrors (Core.bot (Core.world (Core.new_Sys 0)))))
  /\ fst (Core.step (Core.new_Sys 0) (Core.MovePlayer None 7 None) 1) = Core.new_Sys 0
  /\ fst (Core.step (Core.new_Sys 0) (Core.UpdateAttributes 7 None) 1) = Core.new_Sys 0.
Proof.
  split; [| split].
  - apply (proj1 server_events_leave_executor_alone (Core.new_Sys 0)
             (Core.SetHealth (Some 7)) 1). reflexivity.
  - apply (proj1 (proj2 server_events_leave_executor_alone) (Core.new_Sys 0) None 7
             None 1). discriminate.
  - apply (proj2 (proj2 server_events_leave_executor_alone) (Core.new_Sys 0) 7 None 1).
    discriminate.
Defined.

(** ** A timeout gives up the wait, not the handler *)

Lemma resume_abandoned_last (l : list (list Core.Segment)) (seg : Core.Segment)
    (rest : list Core.Segment) (w : Core.World) :
  Core.resume_abandoned (length l) (l ++ [seg :: rest])%list w
  = ((l ++ [rest])%list, Core.run seg w).
Proof.
  induction l as [| h l IH]; [reflexivity |].
  cbn [length app]. destruct h; cbn [Core.resume_abandoned]; now rewrite IH.
Qed.

(** X4.  When the timer fires on a call whose handler still has code to
    run, the packets already sent stay sent, the call ends and the busy
    flag is cleared, so that the next call is accepted; the handler of the
    call that was given up is not cancelled: at the end of its sleep it runs
    its next piece on the same world, while the handler of the new call is
    in flight. *)
Theorem timeout_does_not_cancel_handler (s : Core.Sys) (f : Core.InFlight)
    (seg : Core.Segment) (rest : list Core.Segment) (p : Plan) (r1 r2 : Q)
    (h : Core.Handler) (first : Core.Segment) (more : list Core.Segment)
    (now : Z) :
  Core.inflight s = Some f ->
  Core.if_rest f = seg :: rest ->
  Core.performAction (action p) r1 r2 = Core.Runs h ->
  Core.segments h = first :: more ->
  let s1 := fst (Core.step s Core.TimeoutFires now) in
  let s2 := fst (Core.step s1 (Core.Execute p r1 r2) now) in
  let s3 := fst (Core.step s2 (Core.AbandonedSleepOver (length (Core.abandoned s))) now) in
  Core.wire (Core.world s1) = Core.wire (Core.world s)
  /\ Core.position (Core.bot (Core.world s1)) = Core.position (Core.bot (Core.world s))
  /\ Core.isBusy s1 = false
  /\ Core.inflight s2
     = Some {| Core.if_plan := p; Core.if_rest := more; Core.if_outcome := Core.outcome h |}
  /\ Core.world s2 = Core.run first (Core.world s1)
  /\ Core.world s3 = Core.run seg (Core.run first (Core.world s1))
  /\ Core.inflight s3 = Core.inflight s2
  /\ Core.abandoned s3 = (Core.abandoned s ++ [rest])%list.
Proof.
  intros Hf Hrest Hp Hseg s1 s2 s3.
  assert (E1 : s1 = {| Core.world := Core.world (Core.finish_error s (Core.if_plan f)
                                                   "Action timeout" now);
                       Core.isBusy := false; Core.inflight := None;
                       Core.abandoned := (Core.abandoned s ++ [seg :: rest])%list;
                       Core.invoked := Core.invoked s |}).
  { subst s1. cbn [Core.step]. rewrite Hf. cbn [fst]. now rewrite Hrest. }
  assert (E2 : s2 = {| Core.world := Core.run first (Core.world s1);
                       Core.isBusy := true;
                       Core.inflight := Some {| Core.if_plan := p; Core.if_rest := more;
                                                Core.if_outcome := Core.outcome h |};
                       Core.abandoned := Core.abandoned s1;
                       Core.invoked := S (Core.invoked s1) |}).
  { subst s2. cbn [Core.step].
    rewrite (execute_suspends s1 p r1 r2 now h first more); try assumption.
    - reflexivity.
    - now rewrite E1. }
  assert (E3 : s3 = {| Core.world := Core.run seg (Core.run first (Core.world s1));
                       Core.isBusy := true;
                       Core.inflight := Core.inflight s2;
                       Core.abandoned := (Core.abandoned s ++ [rest])%list;
                       Core.invoked := Core.invoked s2 |}).
  { subst s3. cbn [Core.step]. rewrite E2 at 1 2.
    cbn [Core.abandoned Core.world]. rewrite E1 at 1.
    cbn [Core.abandoned]. rewrite resume_abandoned_last. cbn [fst].
    rewrite E2 at 1. reflexivity. }
  repeat split.
  - now rewrite E1.
  - now rewrite E1.
  - now rewrite E1.
  - now rewrite E2.
  - now rewrite E2.
  - now rewrite E3.
  - now rewrite E3.
  - now rewrite E3.
Qed.

(** A jump northwards that times out after its first half, followed by a
    call of 'wait': the landing packet goes out while 'wait' is in
    flight. *)
Lemma timeout_does_not_cancel_handler_witness :
  Core.wire (Core.world given_up) = Core.wire (Core.world jumping)
  /\ Core.position (Core.bot (Core.world given_up))
     = Core.position (Core.bot (Core.world jumping))
  /\ Core.isBusy given_up = false
  /\ Core.inflight waiting_meanwhile
     = Some {| Core.if_plan := plan_of "wait"; Core.if_rest := [];
               Core.if_outcome := Core.outcome Core.wait |}
  /\ Core.world waiting_meanwhile
     = Core.run {| Core.run := fun w => w; Core.delay := 2000 |} (Core.world given_up)
  /\ Core.world resumed
     = Core.run (Core.jump_step north false)
         (Core.run {| Core.run := fun w => w; Core.delay := 2000 |}
            (Core.world given_up))
  /\ Core.inflight resumed = Core.inflight waiting_meanwhile
  /\ Core.abandoned resumed = (Core.abandoned jumping ++ [[]])%list.
Proof.
  apply (timeout_does_not_cancel_handler jumping
           {| Core.if_plan := plan_of "jumpmove north 1";
              Core.if_rest := [Core.jump_step north false];
              Core.if_outcome := result true "Jump-moved north 1 blocks" |}
           (Core.jump_step north false) [] (plan_of "wait") 0 0 Core.wait
           {| Core.run := fun w => w; Core.delay := 2000 |} [] 1);
    reflexivity.
Defined.

(** ** The handlers of the core variant *)





(** X6.  Mining sends seven packets and never moves the bot: one packet
    that turns the head, down when the target names 'down', 'stone' or
    'dirt' and level otherwise, one that starts breaking a block, and five
    swings of the arm.  The block is the one below the feet when looking
    down; otherwise it is the block one step along the z axis, towards
    positive z only when the stored yaw is zero, whatever the bot faces. *)
Theorem mine_sends_seven_and_stays (target : string) (w : Core.World) :
  let st := Core.bot w in
  let w' := run_all (Core.segments (Core.mine target)) w in
  let down := JS.includes target "down" || JS.includes target "stone"
              || JS.includes target "dirt" in
  let fx := JS.num_floor (x (Core.position st)) in
  let fy := JS.num_floor (y (Core.position st)) in
  let fz := JS.num_floor (z (Core.position st)) in
  let ahead := JS.Fin (if JS.num_is_zero (yaw (Core.rotation st)) then 1 else -1) in
  let block :=
    {| x := fx;
       y := if down then JS.num_add fy (JS.Fin (-1)) else fy;
       z := if down then fz else JS.num_add fz ahead |} in
  Core.position (Core.bot w') = Core.position st
  /\ Core.rotation (Core.bot w')
     = {| yaw := yaw (Core.rotation st); pitch := JS.Fin (if down then 90 else 0) |}
  /\ Core.wire w'
     = (Core.wire w ++
        Core.move_player (Core.entityId st) (Core.position st) (yaw (Core.rotation st))
          (JS.Fin (if down then 90 else 0)) (yaw (Core.rotation st)) true
        :: Core.player_action (Core.entityId st) block
        :: repeat (Core.animate (Core.entityId st)) 5)%list.
Proof.
  intros st w' down fx fy fz ahead block. subst w' block ahead fx fy fz.
  unfold Core.mine. fold down.
  cbn [Core.segments repeat]. rewrite !run_all_cons.
  destruct down; cbn; (split; [reflexivity |]); (split; [reflexivity |]);
    rewrite <- !app_assoc; reflexivity.
Qed.

Lemma Qfloor_unit (r : Q) (n : Z) :
  (0 <= r)%Q -> (r < 1)%Q -> 0 < n -> 0 <= Qfloor (r * inject_Z n) < n.
Proof.
  intros H0 H1 Hn.
  assert (Hq : (0 < inject_Z n)%Q) by (unfold Qlt; cbn; lia).
  split.
  - change 0 with (Qfloor (inject_Z 0)). apply Qfloor_resp_le.
    change (inject_Z 0) with 0%Q. now apply Qmult_le_0_compat, Qlt_le_weak.
  - apply Z.lt_nge. intros Hge.
    assert (Hle : (inject_Z n <= r * inject_Z n)%Q).
    { eapply Qle_trans; [| apply Qfloor_le].
      rewrite <- Zle_Qle. exact Hge. }
    assert (Hlt : (r * inject_Z n < 1 * inject_Z n)%Q)
      by (apply Qmult_lt_compat_r; assumption).
    rewrite Qmult_1_l in Hlt. exact (Qlt_not_le _ _ Hlt Hle).
Qed.

(** X7.  With its two draws in [0, 1), [explore] is a move in one of the
    four directions over three to nine blocks: it never fails on the
    direction, sends between twelve and thirty-six packets and reports
    success. *)
Theorem explore_is_a_valid_move (r1 r2 : Q) :
  (0 <= r1)%Q -> (r1 < 1)%Q -> (0 <= r2)%Q -> (r2 < 1)%Q ->
  exists k distance,
    Core.explore r1 r2 = Core.move (Some k) distance
    /\ In k ["north"; "south"; "east"; "west"]
    /\ 3 <= distance <= 9
    /\ length (Core.segments (Core.explore r1 r2)) = Z.to_nat (4 * distance)
    /\ success (Core.outcome (Core.explore r1 r2)) = Some true.
Proof.
  intros H1 H1' H2 H2'.
  pose proof (Qfloor_unit r1 4 H1 H1' eq_refl) as Hd.
  pose proof (Qfloor_unit r2 7 H2 H2' eq_refl) as Hn.
  unfold Core.explore.
  change (r1 * 4)%Q with (r1 * inject_Z 4)%Q.
  change (r2 * 7)%Q with (r2 * inject_Z 7)%Q.
  set (d := Qfloor (r1 * inject_Z 4)) in *.
  set (n := Qfloor (r2 * inject_Z 7)) in *.
  destruct (Z.ltb_spec d 0) as [Hneg | _]; [lia |].
  assert (Hk : exists k, nth_error ["north"; "south"; "east"; "west"] (Z.to_nat d) = Some k
                         /\ In k ["north"; "south"; "east"; "west"]
                         /\ exists dir, Core.directions (Some k) = Some dir).
  { assert (Hc : d = 0 \/ d = 1 \/ d = 2 \/ d = 3) by lia.
    destruct Hc as [-> | [-> | [-> | ->]]]; eexists;
      (split; [reflexivity |]); (split; [cbn; tauto |]); eexists; reflexivity. }
  destruct Hk as (k & -> & Hin & dir & Hdir).
  exists k, (3 + n). split; [reflexivity |]. split; [exact Hin |].
  split; [lia |].
  unfold Core.move. rewrite Hdir. cbn [Core.segments Core.outcome].
  split; [| reflexivity].
  rewrite repeat_length. unfold Core.max_steps. f_equal. lia.
Qed.

(** Both draws at one half: eastwards over six blocks. *)
Lemma explore_is_a_valid_move_witness :
  exists k distance,
    Core.explore (1 # 2) (1 # 2) = Core.move (Some k) distance
    /\ In k ["north"; "south"; "east"; "west"]
    /\ 3 <= distance <= 9
    /\ length (Core.segments (Core.explore (1 # 2) (1 # 2))) = Z.to_nat (4 * distance)
    /\ success (Core.outcome (Core.explore (1 # 2) (1 # 2))) = Some true.
Proof.
  apply (explore_is_a_valid_move (1 # 2) (1 # 2)); unfold Qle, Qlt; cbn; lia.
Defined.

(** ** The distance argument *)



(** X9.  A negative distance is not refused: a call of [execute] that
    dispatches to [move] or [jumpMove] with a known direction and a
    negative number of blocks ends at once, sends nothing, leaves the
    position where it was and reports success. *)
Theorem negative_distance_reports_success (s : Core.Sys) (p : Plan) (r1 r2 : Q)
    (now : Z) (direction : option string) (dir : Core.Dir) (blocks : Z) :
  Core.isBusy s = false ->
  Core.directions direction = Some dir ->
  blocks < 0 ->
  Core.performAction (action p) r1 r2 = Core.Runs (Core.move direction blocks)
  \/ Core.performAction (action p) r1 r2 = Core.Runs (Core.jumpMove direction blocks) ->
  let out := Core.step s (Core.Execute p r1 r2) now in
  exists r,
    snd out = Some (Core.Completed r)
    /\ success r = Some true
    /\ Core.wire (Core.world (fst out)) = Core.wire (Core.world s)
    /\ Core.position (Core.bot (Core.world (fst out)))
       = Core.position (Core.bot (Core.world s))
    /\ Core.invoked (fst out) = S (Core.invoked s).
Proof.
  intros Hb Hdir Hneg Hp out. subst out. cbn [Core.step]. unfold Core.execute.
  rewrite Hb.
  destruct Hp as [-> | ->].
  - unfold Core.move. rewrite Hdir. cbn [Core.segments Core.outcome].
    replace (Z.to_nat (Z.min (blocks * 4) Core.max_steps)) with 0%nat
      by (unfold Core.max_steps; lia).
    cbn [repeat fst snd]. eexists. repeat split.
  - unfold Core.jumpMove. rewrite Hdir. cbn [Core.segments Core.outcome].
    replace (Z.to_nat blocks) with 0%nat by lia.
    cbn [repeat concat fst snd]. eexists. repeat split.
Qed.

Lemma perform_move_north_back (r1 r2 : Q) :
  Core.performAction "move north -3" r1 r2 = Core.Runs (Core.move (Some "north") (-3)).
Proof.
  unfold Core.performAction.
  replace (Core.tokens "move north -3") with ("move", ["north"; "-3"])
    by (vm_compute; reflexivity).
  unfold Core.actions.
  change (String.eqb "move" "move") with true. cbv iota.
  replace (Core.blocks_arg ["north"; "-3"]) with (-3) by (vm_compute; reflexivity).
  reflexivity.
Qed.

(** The command 'move north -3' on a fresh executor. *)
Lemma negative_distance_reports_success_witness :
  exists r,
    snd (Core.step (Core.new_Sys 0) (Core.Execute (plan_of "move north -3") 0 0) 1)
    = Some (Core.Completed r)
    /\ success r = Some true
    /\ Core.wire (Core.world (fst (Core.step (Core.new_Sys 0)
                                     (Core.Execute (plan_of "move north -3") 0 0) 1)))
       = Core.wire (Core.world (Core.new_Sys 0))
    /\ Core.position (Core.bot (Core.world (fst (Core.step (Core.new_Sys 0)
                                     (Core.Execute (plan_of "move north -3") 0 0) 1))))
       = Core.position (Core.bot (Core.world (Core.new_Sys 0)))
    /\ Core.invoked (fst (Core.step (Core.new_Sys 0)
                            (Core.Execute (plan_of "move north -3") 0 0) 1))
       = S (Core.invoked (Core.new_Sys 0)).
Proof.
  apply (negative_distance_reports_success (Core.new_Sys 0) (plan_of "move north -3")
           0 0 1 (Some "north") north (-3)).
  - reflexivity.
  - reflexivity.
  - lia.
  - left. apply perform_move_north_back.
Defined.

(** ** Directions that are not directions *)

Lemma inherited_direction (k : string) :
  Core.is_inherited k = true ->
  Core.directions (Some k)
  = Some {| Core.dx := JS.Undefined; Core.dz := JS.Undefined;
            Core.dyaw := JS.Undefined |}.
Proof.
  intros H. unfold Core.directions.
  do 4 (match goal with
        | |- context [String.eqb ?c ?n] =>
            destruct (String.eqb_spec c n) as [-> | _];
            [vm_compute in H; discriminate |]
        end).
  now rewrite H.
Qed.

(** A piece of code that cannot bring a coordinate back from [NaN]. *)
Lemma run_all_keeps (P : Core.World -> Prop) (segs : list Core.Segment) :
  Forall (fun seg => forall w, P w -> P (Core.run seg w)) segs ->
  forall w, P w -> P (run_all segs w).
Proof.
  induction segs as [| seg segs IH]; intros Hall w Hw; [exact Hw |].
  inversion Hall as [| ? ? Hseg Hsegs]; subst.
  rewrite run_all_cons. apply IH; [exact Hsegs |]. now apply Hseg.
Qed.

Lemma handlers_keep_nan (a : string) (r1 r2 : Q) (h : Core.Handler) :
  Core.performAction a r1 r2 = Core.Runs h ->
  Forall (fun seg => forall w,
            x (Core.position (Core.bot w)) = JS.NaN ->
            x (Core.position (Core.bot (Core.run seg w))) = JS.NaN)
    (Core.segments h)
  /\ Forall (fun seg => forall w,
               z (Core.position (Core.bot w)) = JS.NaN ->
               z (Core.position (Core.bot (Core.run seg w))) = JS.NaN)
       (Core.segments h).
Proof.
  assert (Hmove : forall direction blocks,
             Forall (fun seg => forall w,
                       x (Core.position (Core.bot w)) = JS.NaN ->
                       x (Core.position (Core.bot (Core.run seg w))) = JS.NaN)
               (Core.segments (Core.move direction blocks))
             /\ Forall (fun seg => forall w,
                          z (Core.position (Core.bot w)) = JS.NaN ->
                          z (Core.position (Core.bot (Core.run seg w))) = JS.NaN)
                  (Core.segments (Core.move direction blocks))).
  { intros direction blocks. unfold Core.move.
    destruct (Core.directions direction) as [dir |]; [| split; constructor].
    cbn [Core.segments].
    split; apply Forall_repeat; intros w Hw; cbn; now rewrite Hw. }
  assert (Hjump : forall direction blocks,
             Forall (fun seg => forall w,
                       x (Core.position (Core.bot w)) = JS.NaN ->
                       x (Core.position (Core.bot (Core.run seg w))) = JS.NaN)
               (Core.segments (Core.jumpMove direction blocks))
             /\ Forall (fun seg => forall w,
                          z (Core.position (Core.bot w)) = JS.NaN ->
                          z (Core.position (Core.bot (Core.run seg w))) = JS.NaN)
                  (Core.segments (Core.jumpMove direction blocks))).
  { intros direction blocks. unfold Core.jumpMove.
    destruct (Core.directions direction) as [dir |]; [| split; constructor].
    cbn [Core.segments].
    split; (induction (Z.to_nat blocks) as [| n IH]; cbn [repeat concat app];
            [constructor |]);
      (constructor; [intros w Hw; cbn; now rewrite Hw |]);
      (constructor; [intros w Hw; cbn; now rewrite Hw | exact IH]). }
  unfold Core.performAction. destruct (Core.tokens a) as [c args].
  unfold Core.actions.
  repeat match goal with
         | |- context [if ?b then _ else _] => destruct b
         end;
    intros H; try discriminate; injection H as <-.
  - apply Hmove.
  - apply Hjump.
  - unfold Core.mine. cbn [Core.segments repeat].
    split; repeat (constructor; [intros w Hw; exact Hw |]); constructor.
  - unfold Core.explore. apply Hmove.
  - split; repeat (constructor; [intros w Hw; exact Hw |]); constructor.
  - split; repeat (constructor; [intros w Hw; exact Hw |]); constructor.
  - split; repeat (constructor; [intros w Hw; exact Hw |]); constructor.
Qed.

(** X10.  [move] looks its direction up in an object literal, so a name
    inherited from [Object.prototype] passes for a direction: the call
    takes all its steps, reports success and leaves the stored x and z at
    [NaN] and the stored yaw undefined.  From then on no command of the
    table brings x or z back to a number. *)
Theorem inherited_direction_poisons_position :
  (forall k blocks w,
      Core.is_inherited k = true -> 0 < blocks ->
      let h := Core.move (Some k) blocks in
      let w' := run_all (Core.segments h) w in
      success (Core.outcome h) = Some true
      /\ length (Core.segments h) = Z.to_nat (Z.min (blocks * 4) 40)
      /\ x (Core.position (Core.bot w')) = JS.NaN
      /\ z (Core.position (Core.bot w')) = JS.NaN
      /\ yaw (Core.rotation (Core.bot w')) = JS.Undefined)
  /\ (forall a r1 r2 h w,
      Core.performAction a r1 r2 = Core.Runs h ->
      (x (Core.position (Core.bot w)) = JS.NaN ->
       x (Core.position (Core.bot (run_all (Core.segments h) w))) = JS.NaN)
      /\ (z (Core.position (Core.bot w)) = JS.NaN ->
          z (Core.position (Core.bot (run_all (Core.segments h) w))) = JS.NaN)).
Proof.
  split.
  - intros k blocks w Hk Hpos h w'. subst w' h.
    unfold Core.move. rewrite (inherited_direction k Hk).
    cbn [Core.segments Core.outcome].
    split; [reflexivity |]. split; [now rewrite repeat_length |].
    unfold Core.max_steps.
    destruct (Z.to_nat (Z.min (blocks * 4) 40)) as [| n] eqn:En; [lia |].
    cbn [repeat]. rewrite run_all_cons.
    set (dir := {| Core.dx := JS.Undefined; Core.dz := JS.Undefined;
                   Core.dyaw := JS.Undefined |}).
    set (sz := Core.stepSize_of blocks (Z.min (blocks * 4) 40)).
    set (w1 := Core.run (Core.move_step dir sz) w).
    assert (Hx : x (Core.position (Core.bot w1)) = JS.NaN).
    { subst w1. cbn. now destruct (x (Core.position (Core.bot w))). }
    assert (Hz : z (Core.position (Core.bot w1)) = JS.NaN).
    { subst w1. cbn. now destruct (z (Core.position (Core.bot w))). }
    assert (Hy : yaw (Core.rotation (Core.bot w1)) = JS.Undefined) by reflexivity.
    split; [| split].
    + apply (run_all_keeps (fun w => x (Core.position (Core.bot w)) = JS.NaN));
        [| exact Hx].
      apply Forall_repeat. intros w0 Hw. cbn. now rewrite Hw.
    + apply (run_all_keeps (fun w => z (Core.position (Core.bot w)) = JS.NaN));
        [| exact Hz].
      apply Forall_repeat. intros w0 Hw. cbn. now rewrite Hw.
    + apply (run_all_keeps (fun w => yaw (Core.rotation (Core.bot w)) = JS.Undefined));
        [| exact Hy].
      apply Forall_repeat. intros w0 Hw. reflexivity.
  - intros a r1 r2 h w Hp. destruct (handlers_keep_nan a r1 r2 h Hp) as [Hx Hz].
    split; intros H.
    + now apply (run_all_keeps (fun w => x (Core.position (Core.bot w)) = JS.NaN)).
    + now apply (run_all_keeps (fun w => z (Core.position (Core.bot w)) = JS.NaN)).
Qed.

(** ** What reaches the handlers is in lower case *)

Lemma all_concat (p : ascii -> bool) (sep : string) (l : list string) :
  all p sep = true -> Forall (fun t => all p t = true) l ->
  all p (String.concat sep l) = true.
Proof.
  intros Hsep. induction l as [| t l IH]; intros H; [reflexivity |].
  inversion H as [| ? ? Ht Hl]; subst. cbn [String.concat].
  destruct l as [| u l]; [exact Ht |].
  rewrite !all_app, Ht, Hsep. cbn [andb]. now apply IH.
Qed.

Lemma core_args_no_capital (a : string) :
  Forall (fun t => no_capital t = true) (snd (Core.tokens a)).
Proof.
  unfold Core.tokens, JS.split_ws, JS.trim.
  pose proof (all_split_ws (fun c => negb (JS.is_upper c))
                (JS.trimEnd (JS.trimStart (JS.toLowerCase a))) "" false
                (all_trimEnd _ _ (all_trimStart _ _ (lower_no_capital a))) eq_refl)
    as H.
  destruct (JS.split_ws_go _ _ _) as [| c args]; [constructor |].
  now inversion H.
Qed.

(** X11.  The text of a 'chat' command is not sent as it was given: the
    action string is put in lower case and split at white space before the
    table is looked up, so the message that goes out has none of the
    letters A to Z in upper case; a command without text sends 'Hello!' and
    still reports the empty text. *)
Theorem chat_goes_out_in_lower_case (a : string) (r1 r2 : Q) (w : Core.World) :
  fst (Core.tokens a) = "chat" ->
  let msg := JS.join_space (snd (Core.tokens a)) in
  Core.performAction a r1 r2 = Core.Runs (Core.chat msg)
  /\ no_capital msg = true
  /\ run_all (Core.segments (Core.chat msg)) w
     = Core.write (Core.text (if String.eqb msg "" then "Hello!" else msg)) w
  /\ Core.outcome (Core.chat msg) = result true ("Sent: " ++ msg).
Proof.
  intros Hc msg. subst msg. split; [| split; [| split; reflexivity]].
  - unfold Core.performAction. destruct (Core.tokens a) as [c args].
    cbn [fst snd] in *. subst c. reflexivity.
  - unfold JS.join_space, no_capital. apply all_concat; [reflexivity |].
    apply core_args_no_capital.
Qed.

Lemma chat_goes_out_in_lower_case_witness :
  Core.performAction "chat Hello   World" 0 0
  = Core.Runs (Core.chat (JS.join_space (snd (Core.tokens "chat Hello   World"))))
  /\ no_capital (JS.join_space (snd (Core.tokens "chat Hello   World"))) = true
  /\ run_all (Core.segments
                (Core.chat (JS.join_space (snd (Core.tokens "chat Hello   World")))))
       {| Core.bot := Core.new_BotState 0; Core.wire := [] |}
     = Core.write
         (Core.text
            (if String.eqb (JS.join_space (snd (Core.tokens "chat Hello   World"))) ""
             then "Hello!"
             else JS.join_space (snd (Core.tokens "chat Hello   World"))))
         {| Core.bot := Core.new_BotState 0; Core.wire := [] |}
  /\ Core.outcome (Core.chat (JS.join_space (snd (Core.tokens "chat Hello   World"))))
     = result true ("Sent: " ++ JS.join_space (snd (Core.tokens "chat Hello   World"))).
Proof.
  apply (chat_goes_out_in_lower_case "chat Hello   World" 0 0
           {| Core.bot := Core.new_BotState 0; Core.wire := [] |}).
  reflexivity.
Defined.

(** ** The verb scan and the table *)

Lemma search_finds (re : list Regex.atom) (t : string) (f : Regex.found) :
  Regex.match_here re t = Some f ->
  forall pre, Regex.search re (pre ++ t) <> None.
Proof.
  intros H pre. induction pre as [| c pre IH].
  - cbn [append]. now rewrite (search_here re t f H).
  - cbn [append]. destruct t; cbn [Regex.search];
      destruct (Regex.match_here re (String c _)); try discriminate; exact IH.
Qed.

Lemma jumpmove_holds_move (r : string) :
  Regex.search (Regex.verb_phrase "jumpmove") r <> None ->
  Regex.search (Regex.verb_phrase "move") r <> None.
Proof.
  intros H. destruct (Regex.search (Regex.verb_phrase "jumpmove") r) as [f |] eqn:Hs;
    [clear H | congruence].
  apply search_sound in Hs. destruct Hs as (pre & t & -> & Hm).
  change (Regex.verb_phrase "jumpmove")
    with (Regex.lits "jump" ++ Regex.verb_phrase "move")%list in Hm.
  rewrite match_here_lits in Hm.
  destruct (strip_ci "jump" t) as [[t1 t2] |] eqn:Hstrip; [| discriminate].
  apply strip_ci_spec in Hstrip. destruct Hstrip as [-> _].
  destruct (Regex.match_here (Regex.verb_phrase "move") t2) as [f' |] eqn:Hm2;
    [| discriminate].
  rewrite <- append_assoc. exact (search_finds _ _ _ Hm2 (pre ++ t1)).
Qed.

(** X12.  The last verb of the list the parser scans is dead: wherever the
    pattern of 'jumpmove' matches, the pattern of 'move', which is tried
    first, matches too.  The scan gives the same result without it, so a
    reply that names a jump-move without the marker is read as a plain
    move. *)
Theorem scan_never_reaches_jumpmove (r : string) :
  Core.scan_commands Core.commands r
  = Core.scan_commands ["move"; "mine"; "explore"; "attack"; "chat"; "wait"] r.
Proof.
  unfold Core.commands. cbn [Core.scan_commands].
  destruct (Regex.search (Regex.verb_phrase "move") r) as [[m c] |] eqn:Hmove;
    [reflexivity |].
  do 5 (match goal with
        | |- context [Regex.search (Regex.verb_phrase ?v) r] =>
            destruct (Regex.search (Regex.verb_phrase v) r) as [[? ?] |];
            [reflexivity |]
        end).
  destruct (Regex.search (Regex.verb_phrase "jumpmove") r) as [[m c] |] eqn:Hjump;
    [| reflexivity].
  exfalso. apply (jumpmove_holds_move r); congruence.
Qed.

Lemma is_space_lower (c : ascii) : JS.is_space (JS.lower_char c) = JS.is_space c.
Proof. destruct c as [[] [] [] [] [] [] [] []]; reflexivity. Qed.

Lemma nonspace_lower (s : string) :
  all (fun c => negb (JS.is_space c)) (JS.toLowerCase s)
  = all (fun c => negb (JS.is_space c)) s.
Proof.
  induction s as [| c s IH]; [reflexivity |].
  cbn [JS.toLowerCase all]. now rewrite is_space_lower, IH.
Qed.

Lemma trimEnd_cons (c : ascii) (s : string) :
  JS.is_space c = false -> JS.trimEnd (String c s) = String c (JS.trimEnd s).
Proof. intros H. cbn [JS.trimEnd]. destruct (JS.trimEnd s); now rewrite ?H. Qed.

Lemma trimEnd_app (v s : string) :
  all (fun c => negb (JS.is_space c)) v = true ->
  JS.trimEnd (v ++ s) = v ++ JS.trimEnd s.
Proof.
  induction v as [| c v IH]; intros H; [reflexivity |].
  cbn [all] in H. apply andb_true_iff in H. destruct H as [Hc Hv].
  apply negb_true_iff in Hc. cbn [append].
  now rewrite trimEnd_cons, IH.
Qed.

(** A text that is empty or begins with white space. *)
Lemma trimEnd_break (s : string) :
  stops (fun c => negb (JS.is_space c)) s = true ->
  stops (fun c => negb (JS.is_space c)) (JS.trimEnd s) = true.
Proof.
  destruct s as [| c s]; [reflexivity |]. intros H.
  cbn [JS.trimEnd]. destruct (JS.trimEnd s).
  - destruct (JS.is_space c); [reflexivity | exact H].
  - exact H.
Qed.

Lemma lower_break (s : string) :
  stops (fun c => negb (JS.is_space c)) s = true ->
  stops (fun c => negb (JS.is_space c)) (JS.toLowerCase s) = true.
Proof.
  destruct s as [| c s]; [reflexivity |]. cbn. now rewrite is_space_lower.
Qed.

Lemma split_ws_first (v : string) :
  forall cur rest,
    all (fun c => negb (JS.is_space c)) v = true ->
    stops (fun c => negb (JS.is_space c)) rest = true ->
    exists more, JS.split_ws_go (v ++ rest) cur false = (cur ++ v) :: more.
Proof.
  induction v as [| c v IH]; intros cur rest Hv Hrest.
  - cbn [append]. rewrite append_nil_r. destruct rest as [| d t].
    + now exists [].
    + cbn in Hrest. rewrite negb_involutive in Hrest.
      cbn [JS.split_ws_go]. rewrite Hrest. eexists. reflexivity.
  - cbn [all] in Hv. apply andb_true_iff in Hv. destruct Hv as [Hc Hv].
    apply negb_true_iff in Hc. cbn [append JS.split_ws_go]. rewrite Hc.
    destruct (IH (cur ++ String c "") rest Hv Hrest) as [more ->].
    exists more. now rewrite append_assoc.
Qed.

(** The leading token of a trimmed phrase that begins with a word. *)
Lemma tokens_of_phrase (v rest : string) :
  v <> "" ->
  all (fun c => negb (JS.is_space c)) v = true ->
  stops (fun c => negb (JS.is_space c)) rest = true ->
  fst (Core.tokens (JS.trim (v ++ rest))) = JS.toLowerCase v.
Proof.
  intros Hne Hv Hrest.
  assert (Hstart : forall u s, u <> "" ->
             all (fun c => negb (JS.is_space c)) u = true ->
             JS.trimStart (u ++ s) = u ++ s).
  { intros u s Hu Hall. destruct u as [| c u]; [congruence |].
    cbn [all] in Hall. apply andb_true_iff in Hall. destruct Hall as [Hc _].
    apply negb_true_iff in Hc. cbn [append JS.trimStart]. now rewrite Hc. }
  unfold Core.tokens, JS.split_ws, JS.trim.
  rewrite (Hstart v rest Hne Hv), (trimEnd_app v rest Hv), lower_append.
  assert (Hlv : all (fun c => negb (JS.is_space c)) (JS.toLowerCase v) = true)
    by now rewrite nonspace_lower.
  assert (Hlne : JS.toLowerCase v <> "") by (destruct v; [congruence | discriminate]).
  rewrite (Hstart _ _ Hlne Hlv), (trimEnd_app _ _ Hlv).
  destruct (split_ws_first (JS.toLowerCase v) ""
              (JS.trimEnd (JS.toLowerCase (JS.trimEnd rest))) Hlv) as [more ->].
  - apply trimEnd_break, lower_break, trimEnd_break, Hrest.
  - reflexivity.
Qed.

Lemma known_command_runs (a : string) (r1 r2 : Q) :
  In (fst (Core.tokens a)) Core.handler_names ->
  exists h, Core.performAction a r1 r2 = Core.Runs h.
Proof.
  unfold Core.performAction. destruct (Core.tokens a) as [c args]. cbn [fst].
  intros [<- | [<- | [<- | [<- | [<- | [<- | [<- | []]]]]]]]; eexists; reflexivity.
Qed.

Lemma scanned_action_is_known (r a : string) :
  Core.scan_commands Core.commands r = Some a ->
  In (fst (Core.tokens a)) Core.handler_names.
Proof.
  intros H. apply scan_commands_spec in H.
  destruct H as (before & v & after & m & c & Hcmds & _ & Hs & ->).
  apply verb_sound in Hs.
  destruct Hs as (pre & v' & ws & args & tail & _ & -> & Hv & Hws & Hall & _ & _).
  assert (Hin : In v Core.commands) by (rewrite Hcmds; apply in_elt).
  assert (Hv2 : JS.toLowerCase v = v
                /\ all (fun c => negb (JS.is_space c)) v = true
                /\ v <> "" /\ In v Core.handler_names).
  { destruct Hin as [<- | [<- | [<- | [<- | [<- | [<- | [<- | []]]]]]]];
      (split; [reflexivity |]); (split; [reflexivity |]);
      (split; [discriminate | cbn; tauto]). }
  destruct Hv2 as (Hlow & Hns & Hne & Hknown).
  rewrite Hlow in Hv.
  rewrite tokens_of_phrase.
  - now rewrite Hv.
  - intros ->. cbn in Hv. congruence.
  - rewrite <- nonspace_lower, Hv. exact Hns.
  - destruct ws as [| d ws]; [congruence |].
    cbn in Hall. apply andb_true_iff in Hall. destruct Hall as [Hd _].
    cbn. unfold Regex.whitespace in Hd. now rewrite Hd.
Qed.

(** X13.  Only the marker can make the decision engine ask for a command
    the executor does not know.  A reply without a match of the marker
    pattern gives an action whose leading token is one of the seven
    commands, by the verb scan or by the default; so does a cycle whose
    call of the service fails, by the holding action or the fallback.  The
    executor finds a handler for each of them. *)
Theorem markerless_plans_are_known :
  (forall r r1 r2,
      Regex.search Regex.action_marker r = None ->
      In (fst (Core.tokens (action (Core.parseAction r)))) Core.handler_names
      /\ exists h, Core.performAction (action (Core.parseAction r)) r1 r2 = Core.Runs h)
  /\ (forall ai st reply now r1 r2,
      Core.callGemini reply = None ->
      let p := Core.th_plan (Core.think ai st reply now) in
      In (fst (Core.tokens (action p))) Core.handler_names
      /\ exists h, Core.performAction (action p) r1 r2 = Core.Runs h).
Proof.
  split.
  - intros r r1 r2 Hm.
    assert (Hin : In (fst (Core.tokens (action (Core.parseAction r))))
                    Core.handler_names).
    { unfold Core.parseAction. rewrite Hm.
      destruct (Core.scan_commands Core.commands r) as [a |] eqn:Hs.
      - cbn [action]. now apply scanned_action_is_known with (r := r).
      - vm_compute. tauto. }
    split; [exact Hin | now apply known_command_runs].
  - intros ai st reply now r1 r2 Hf p. subst p.
    assert (Hin : In (fst (Core.tokens (action (Core.th_plan
                                                  (Core.think ai st reply now)))))
                    Core.handler_names).
    { unfold Core.think. rewrite Hf. cbn [Core.th_plan].
      destruct (Core.maxConsecutiveErrors <? _); [| vm_compute; tauto].
      unfold Core.safeFallback.
      destruct (Core.health _ <? 10); [vm_compute; tauto |].
      destruct (GamePhase_eqb _ early); vm_compute; tauto. }
    split; [exact Hin | now apply known_command_runs].
Qed.

(** A reply that names a command in passing, and a service that cannot be
    reached. *)
Lemma markerless_plans_are_known_witness :
  (In (fst (Core.tokens (action (Core.parseAction "I would Mine wood next"))))
     Core.handler_names
   /\ exists h,
        Core.performAction (action (Core.parseAction "I would Mine wood next")) 0 0
        = Core.Runs h)
  /\ (let p := Core.th_plan (Core.think {| Core.conversationHistory := [] |}
                               (Core.new_BotState 0) Core.Unreachable 1) in
      In (fst (Core.tokens (action p))) Core.handler_names
      /\ exists h, Core.performAction (action p) 0 0 = Core.Runs h).
Proof.
  split.
  - apply (proj1 markerless_plans_are_known "I would Mine wood next" 0%Q 0%Q).
    vm_compute. reflexivity.
  - apply (proj2 markerless_plans_are_known {| Core.conversationHistory := [] |}
             (Core.new_BotState 0) Core.Unreachable 1 0%Q 0%Q).
    reflexivity.
Defined.

(** The command 'move constructor 5' from the origin, and 'move north -3'
    once x is lost. *)
Lemma inherited_direction_poisons_position_witness :
  (let h := Core.move (Some "constructor") 5 in
   let w' := run_all (Core.segments h)
               {| Core.bot := Core.new_BotState 0; Core.wire := [] |} in
   success (Core.outcome h) = Some true
   /\ length (Core.segments h) = Z.to_nat (Z.min (5 * 4) 40)
   /\ x (Core.position (Core.bot w')) = JS.NaN
   /\ z (Core.position (Core.bot w')) = JS.NaN
   /\ yaw (Core.rotation (Core.bot w')) = JS.Undefined)
  /\ x (Core.position
          (Core.bot
             (run_all (Core.segments (Core.move (Some "north") (-3)))
                {| Core.bot :=
                     Core.set_position (Core.new_BotState 0)
                       {| x := JS.NaN; y := JS.Fin 0; z := JS.Fin 0 |};
                   Core.wire := [] |}))) = JS.NaN.
Proof.
  split.
  - apply (proj1 inherited_direction_poisons_position "constructor" 5
             {| Core.bot := Core.new_BotState 0; Core.wire := [] |}).
    + reflexivity.
    + lia.
  - apply (proj1 (proj2 inherited_direction_poisons_position "move north -3" 0%Q 0%Q
                    (Core.move (Some "north") (-3))
                    {| Core.bot :=
                         Core.set_position (Core.new_BotState 0)
                           {| x := JS.NaN; y := JS.Fin 0; z := JS.Fin 0 |};
                       Core.wire := [] |}
                    (perform_move_north_back 0 0))).
    reflexivity.
Defined.

(** ** The control loop *)

(** A call on an idle executor whose handler runs to its end: the executor
    is idle again, and the error counter is at zero unless the call of the
    table entry threw. *)
Lemma execute_settles (s : Core.Sys) (p : Plan) (r1 r2 : Q) (now : Z) :
  Core.isBusy s = false ->
  let out := Core.step s (Core.Execute p r1 r2) now in
  let s' := Loop.settle (fst out) now in
  snd out <> Some Core.Busy
  /\ Core.isBusy s' = false
  /\ Core.inflight s' = None
  /\ (Core.consecutiveErrors (Core.bot (Core.world s')) = 0
      \/ (exists msg, Core.performAction (action p) r1 r2 = Core.Throws msg)
         /\ Core.consecutiveErrors (Core.bot (Core.world s'))
            = Core.consecutiveErrors (Core.bot (Core.world s))).
Proof.
  intros Hb out s'. subst s' out. cbn [Core.step]. unfold Core.execute. rewrite Hb.
  destruct (Core.performAction (action p) r1 r2) as [msg | r | h] eqn:Hp.
  - cbn [fst snd]. unfold Loop.settle. cbn [Core.finish_error Core.inflight].
    repeat split; try discriminate. right. split; [now exists msg | reflexivity].
  - cbn [fst snd]. unfold Loop.settle. cbn [Core.finish_ok Core.inflight].
    repeat split; try discriminate. now left.
  - destruct (Core.segments h) as [| first rest] eqn:Hseg; cbn [fst snd].
    + unfold Loop.settle. cbn [Core.finish_ok Core.inflight].
      repeat split; try discriminate. now left.
    + unfold Loop.settle. cbn [Core.inflight Core.if_rest].
      fold (sleeps (S (length rest)) now).
      rewrite sleeps_succ, steps_app.
      match goal with
      | |- context [Core.steps ?s0 (sleeps (length rest) now)] =>
          set (s1 := s0);
          pose proof (inflight_call_completes now s1
                        {| Core.if_plan := p; Core.if_rest := rest;
                           Core.if_outcome := Core.outcome h |} eq_refl) as [Hc _]
      end.
      cbn [Core.if_rest Core.if_plan Core.if_outcome] in Hc.
      cbn [Core.steps]. rewrite Hc. cbn [fst].
      repeat split; try discriminate. now left.
Qed.

Lemma perform_wait (r1 r2 : Q) : Core.performAction "wait" r1 r2 = Core.Runs Core.wait.
Proof. reflexivity. Qed.

(** One turn of the loop from an idle executor with the counter at zero. *)
Lemma iteration_calm (b : Loop.MinecraftBot) (d : Loop.Draw) :
  Core.isBusy (Loop.executor b) = false ->
  Core.consecutiveErrors (Core.bot (Core.world (Loop.executor b))) = 0 ->
  let b' := Loop.iteration b d in
  Core.isBusy (Loop.executor b') = false
  /\ Core.inflight (Loop.executor b') = None
  /\ Core.consecutiveErrors (Core.bot (Core.world (Loop.executor b'))) = 0
  /\ Loop.isRunning b' = Loop.isRunning b
  /\ Loop.thinkCount b' = S (Loop.thinkCount b).
Proof.
  intros Hb Hc b'. subst b'. unfold Loop.iteration.
  set (t := Core.think (Loop.ai b) (Core.bot (Core.world (Loop.executor b)))
              (Loop.reply d) (Loop.now d)).
  set (s0 := Core.set_world (Loop.executor b) _).
  cbn [Loop.executor Loop.isRunning Loop.thinkCount].
  destruct (execute_settles s0 (Core.th_plan t) (Loop.r1 d) (Loop.r2 d) (Loop.now d) Hb)
    as (_ & H1 & H2 & H3).
  repeat split; try assumption.
  destruct H3 as [H3 | [[msg Hthrow] H3]]; [exact H3 |].
  rewrite H3. subst s0. cbn [Core.set_world Core.world Core.bot].
  subst t. unfold Core.think in *.
  destruct (Core.callGemini (Loop.reply d)) as [response |].
  - exact Hc.
  - exfalso. cbn [Core.th_plan Core.set_consecutiveErrors Core.consecutiveErrors] in Hthrow.
    rewrite Hc in Hthrow. change (Core.maxConsecutiveErrors <? 0 + 1) with false in Hthrow.
    cbn [action] in Hthrow. rewrite perform_wait in Hthrow. discriminate.
Qed.

Lemma aiLoop_calm (draws : list Loop.Draw) :
  forall b,
    Loop.isRunning b = true ->
    Core.isBusy (Loop.executor b) = false ->
    Core.consecutiveErrors (Core.bot (Core.world (Loop.executor b))) = 0 ->
    let b' := Loop.aiLoop b draws in
    Core.isBusy (Loop.executor b') = false
    /\ Core.consecutiveErrors (Core.bot (Core.world (Loop.executor b'))) = 0
    /\ Loop.isRunning b' = true
    /\ Loop.thinkCount b' = (Loop.thinkCount b + length draws)%nat.
Proof.
  induction draws as [| d draws IH]; intros b Hr Hb Hc.
  - cbn. repeat split; try assumption. lia.
  - cbn [Loop.aiLoop length]. rewrite Hr.
    destruct (iteration_calm b d Hb Hc) as (H1 & _ & H3 & H4 & H5).
    rewrite Hr in H4.
    destruct (IH (Loop.iteration b d) H4 H1 H3) as (I1 & I2 & I3 & I4).
    repeat split; try assumption. rewrite I4, H5. lia.
Qed.

(** X14.  In a run of the control loop in which every handler runs to its
    end and nothing else calls the executor, every turn finds the executor
    idle and the error counter at zero, however often the reasoning
    service fails: the holding action of a failed cycle is a call that
    reaches the end of its [try] block and puts the counter back.  So no
    call of the loop is turned away as busy, the counter never gets past
    one, and the fallback of the decision engine is never used: a cycle
    whose service call fails always waits. *)
Theorem loop_never_trips_the_breaker (now0 : Z) (draws : list Loop.Draw) (d : Loop.Draw) :
  let b := Loop.aiLoop (Loop.on_spawn (Loop.connected now0)) draws in
  let st := Core.bot (Core.world (Loop.executor b)) in
  let t := Core.think (Loop.ai b) st (Loop.reply d) (Loop.now d) in
  let s0 := Core.set_world (Loop.executor b)
              {| Core.bot := Core.th_state t;
                 Core.wire := Core.wire (Core.world (Loop.executor b)) |} in
  Loop.thinkCount b = length draws
  /\ Core.isBusy (Loop.executor b) = false
  /\ Core.consecutiveErrors st = 0
  /\ Core.consecutiveErrors (Core.th_state t) <= 1
  /\ (Core.callGemini (Loop.reply d) = None ->
      Core.th_plan t = {| action := "wait"; reasoning := "Error recovery" |})
  /\ snd (Core.step s0 (Core.Execute (Core.th_plan t) (Loop.r1 d) (Loop.r2 d))
            (Loop.now d)) <> Some Core.Busy.
Proof.
  intros b st t s0.
  destruct (aiLoop_calm draws (Loop.on_spawn (Loop.connected now0))
              eq_refl eq_refl eq_refl) as (Hb & Hc & _ & Hn).
  fold b in Hb, Hc, Hn. fold st in Hc.
  split; [exact Hn |]. split; [exact Hb |]. split; [exact Hc |].
  split; [| split].
  - subst t. unfold Core.think.
    destruct (Core.callGemini (Loop.reply d)); cbn; lia.
  - intros Hf. subst t. unfold Core.think. rewrite Hf.
    cbn [Core.th_plan Core.set_consecutiveErrors Core.consecutiveErrors].
    now rewrite Hc.
  - subst s0. cbn [Core.step]. unfold Core.execute.
    cbn [Core.set_world Core.isBusy]. rewrite Hb.
    destruct (Core.performAction _ _ _) as [msg | r | h]; try discriminate.
    destruct (Core.segments h); discriminate.
Qed.

(** The loop after three cycles without an answer, and a fourth one. *)
Lemma loop_never_trips_the_breaker_witness :
  Core.th_plan
    (Core.think
       (Loop.ai (Loop.aiLoop (Loop.on_spawn (Loop.connected 0))
                   (repeat {| Loop.reply := Core.Unreachable; Loop.r1 := 0;
                              Loop.r2 := 0; Loop.now := 1 |} 3)))
       (Core.bot (Core.world (Loop.executor
          (Loop.aiLoop (Loop.on_spawn (Loop.connected 0))
             (repeat {| Loop.reply := Core.Unreachable; Loop.r1 := 0;
                        Loop.r2 := 0; Loop.now := 1 |} 3)))))
       Core.Unreachable 1)
  = {| action := "wait"; reasoning := "Error recovery" |}.
Proof.
  apply (proj1 (proj2 (proj2 (proj2 (proj2
           (loop_never_trips_the_breaker 0
              (repeat {| Loop.reply := Core.Unreachable; Loop.r1 := 0;
                         Loop.r2 := 0; Loop.now := 1 |} 3)
              {| Loop.reply := Core.Unreachable; Loop.r1 := 0;
                 Loop.r2 := 0; Loop.now := 1 |})))))).
  reflexivity.
Defined.

(** ** The trace log of the decision engine *)

Lemma think_log (ai : Core.GeminiController) (st : Core.BotState)
    (reply : Core.ServiceReply) (now : Z) :
  Core.conversationHistory (Core.th_controller (Core.think ai st reply now))
  = match Core.callGemini reply with
    | Some response =>
        push_bounded 20 (Core.conversationHistory ai)
          {| Core.t_context := Core.getContextForAI st;
             Core.t_response := response;
             Core.t_action := Core.parseAction response;
             Core.t_timestamp := now |}
    | None => Core.conversationHistory ai
    end.
Proof. unfold Core.think. destruct (Core.callGemini reply); reflexivity. Qed.

Lemma push_bounded_grows {A : Type} (cap : nat) (h : list A) (e : A) :
  (length (push_bounded cap h e) <= S (length h))%nat.
Proof. rewrite push_bounded_slice, slice_last_length, length_app. cbn. lia. Qed.

Lemma aiLoop_log (draws : list Loop.Draw) :
  forall b,
    (length (Core.conversationHistory (Loop.ai b)) <= 20)%nat ->
    (length (Core.conversationHistory (Loop.ai b)) <= Loop.thinkCount b)%nat ->
    let b' := Loop.aiLoop b draws in
    (length (Core.conversationHistory (Loop.ai b')) <= 20)%nat
    /\ (length (Core.conversationHistory (Loop.ai b')) <= Loop.thinkCount b')%nat.
Proof.
  induction draws as [| d draws IH]; intros b H1 H2; [now split |].
  cbn [Loop.aiLoop]. destruct (Loop.isRunning b); [| now split].
  apply IH; unfold Loop.iteration; cbn [Loop.ai Loop.thinkCount]; rewrite think_log;
    destruct (Core.callGemini (Loop.reply d)).
  - now apply push_bounded_length.
  - exact H1.
  - pose proof (push_bounded_grows 20 (Core.conversationHistory (Loop.ai b))
                  {| Core.t_context :=
                       Core.getContextForAI (Core.bot (Core.world (Loop.executor b)));
                     Core.t_response := s;
                     Core.t_action := Core.parseAction s;
                     Core.t_timestamp := Loop.now d |}) as Hg.
    lia.
  - lia.
Qed.

(** X15.  The trace log of the decision engine holds at most twenty
    entries in every run of the control loop, and never more than there
    were cycles: a cycle whose service call succeeds appends one trace and
    drops the oldest beyond twenty, a cycle whose call fails leaves the log
    as it was. *)
Theorem trace_log_bounded :
  (forall now0 draws,
      let b := Loop.aiLoop (Loop.on_spawn (Loop.connected now0)) draws in
      (length (Core.conversationHistory (Loop.ai b)) <= 20)%nat
      /\ (length (Core.conversationHistory (Loop.ai b)) <= Loop.thinkCount b)%nat)
  /\ (forall ai st reply now,
      Core.conversationHistory (Core.th_controller (Core.think ai st reply now))
      = match Core.callGemini reply with
        | Some response =>
            slice_last 20
              (Core.conversationHistory ai ++
               [ {| Core.t_context := Core.getContextForAI st;
                    Core.t_response := response;
                    Core.t_action := Core.parseAction response;
                    Core.t_timestamp := now |} ])%list
        | None => Core.conversationHistory ai
        end).
Proof.
  split.
  - intros now0 draws. apply aiLoop_log; cbn; lia.
  - intros ai st reply now. rewrite think_log.
    destruct (Core.callGemini reply); [apply push_bounded_slice | reflexivity].
Qed.

(** ** The executor of the broad variant *)








(** ** Padding and letter case of the action string *)

Lemma trimStart_padding (pad s : string) :
  all JS.is_space pad = true -> JS.trimStart (pad ++ s) = JS.trimStart s.
Proof.
  induction pad as [| c pad IH]; intros H; [reflexivity |].
  cbn [all] in H. apply andb_true_iff in H. destruct H as [Hc Hp].
  cbn [append JS.trimStart]. rewrite Hc. now apply IH.
Qed.

Lemma trimEnd_padding (s pad : string) :
  all JS.is_space pad = true -> JS.trimEnd (s ++ pad) = JS.trimEnd s.
Proof.
  intros H.
  assert (Hp : JS.trimEnd pad = "").
  { induction pad as [| c pad IH]; [reflexivity |].
    cbn [all] in H. apply andb_true_iff in H. destruct H as [Hc Hpad].
    cbn [JS.trimEnd]. now rewrite (IH Hpad), Hc. }
  induction s as [| c s IH]; [exact Hp |].
  cbn [append JS.trimEnd]. now rewrite IH.
Qed.

Lemma space_lower (s : string) :
  all JS.is_space (JS.toLowerCase s) = all JS.is_space s.
Proof.
  induction s as [| c s IH]; [reflexivity |].
  cbn [JS.toLowerCase all]. now rewrite is_space_lower, IH.
Qed.

Lemma lower_char_twice (c : ascii) : JS.lower_char (JS.lower_char c) = JS.lower_char c.
Proof. destruct c as [[] [] [] [] [] [] [] []]; reflexivity. Qed.

Lemma lower_twice (s : string) : JS.toLowerCase (JS.toLowerCase s) = JS.toLowerCase s.
Proof.
  induction s as [| c s IH]; [reflexivity |].
  cbn [JS.toLowerCase]. now rewrite lower_char_twice, IH.
Qed.

(** X18.  The executor of the core variant reads the action string up to
    the case of its letters and up to white space around it; the executor
    of the broad variant splits at single spaces without trimming, so that
    any action string that begins with a space is an unknown action with
    an empty name. *)
Theorem padding_of_the_action_string :
  (forall a r1 r2,
      Core.performAction (JS.toLowerCase a) r1 r2 = Core.performAction a r1 r2)
  /\ (forall before a after r1 r2,
      all JS.is_space before = true -> all JS.is_space after = true ->
      Core.performAction (before ++ a ++ after) r1 r2 = Core.performAction a r1 r2)
  /\ (forall a ox oz,
      Broad.performAction (" " ++ a) ox oz
      = Broad.Returns (result false "Unknown action: ")).
Proof.
  split; [| split].
  - intros a r1 r2. unfold Core.performAction, Core.tokens. now rewrite lower_twice.
  - intros before a after r1 r2 Hb Ha.
    unfold Core.performAction, Core.tokens, JS.trim.
    rewrite !lower_append, trimStart_padding by now rewrite space_lower.
    assert (Hcut : JS.trimEnd (JS.trimStart (JS.toLowerCase a ++ JS.toLowerCase after))
                   = JS.trimEnd (JS.trimStart (JS.toLowerCase a))).
    { assert (Hl : all JS.is_space (JS.toLowerCase after) = true)
        by now rewrite space_lower.
      revert Hl. generalize (JS.toLowerCase after) as pad.
      generalize (JS.toLowerCase a) as t. clear.
      induction t as [| c t IH]; intros pad Hl.
      - cbn [append]. rewrite <- (append_nil_r pad) at 1.
        rewrite trimStart_padding by exact Hl. cbn.
        reflexivity.
      - cbn [append JS.trimStart]. destruct (JS.is_space c); [now apply IH |].
        change (String c (t ++ pad)) with (String c t ++ pad).
        now apply trimEnd_padding. }
    now rewrite Hcut.
  - intros a ox oz. reflexivity.
Qed.

(** The action ' Wait ' in the core variant. *)
Lemma padding_of_the_action_string_witness :
  Core.performAction (" " ++ "Wait" ++ " ") 0 0 = Core.performAction "Wait" 0 0.
Proof.
  apply (proj1 (proj2 padding_of_the_action_string) " " "Wait" " " 0%Q 0%Q);
    reflexivity.
Defined.

(** X19.  When the planning service fails, the planner of the broad
    variant answers with a plan that depends on the stored phase only, and
    the executor of that variant knows it: mining in the early and the mid
    phase, which sends the packet and waits, exploring afterwards, which
    sends its packet and returns. *)
Theorem fallback_plan_is_known (st : Broad.BotState) (ox oz : Q) :
  exists h,
    Broad.performAction (action (Planner.fallbackPlan st)) ox oz = Broad.Runs h
    /\ Broad.awaits h
       = match Broad.gamePhase st with early | mid => true | _ => false end
    /\ forall w, length (Broad.wire (Broad.sends h w)) = S (length (Broad.wire w)).
Proof.
  unfold Planner.fallbackPlan.
  destruct (Broad.gamePhase st); eexists;
    (split; [reflexivity |]); (split; [reflexivity |]);
    intros w; cbn; rewrite length_app; cbn; lia.
Qed.

(** ** The stored phase in a run *)

Lemma step_keeps_inventory_phase (s : Core.Sys) (e : Core.Event) (now : Z) :
  quiet_sys s ->
  match e with Core.InventoryContent _ => False | _ => True end ->
  Core.inventory (Core.bot (Core.world (fst (Core.step s e now))))
  = Core.inventory (Core.bot (Core.world s))
  /\ Core.gamePhase (Core.bot (Core.world (fst (Core.step s e now))))
     = Core.gamePhase (Core.bot (Core.world s)).
Proof.
  intros [Hin Hab] He.
  destruct e as [p r1 r2 | | | msg | i | items | h | id attrs | pos id rot | id pos];
    try contradiction; cbn [Core.step].
  - unfold Core.execute. destruct (Core.isBusy s); [now split |].
    destruct (Core.performAction (action p) r1 r2) as [msg | r | h] eqn:Hp;
      [now split | now split |].
    apply quiet_handlers in Hp.
    destruct (Core.segments h) as [| first rest]; cbn [fst]; [now split |].
    inversion Hp as [| ? ? Hfirst _]; subst.
    destruct (Hfirst (Core.world s)) as (_ & _ & Hg & Hi & _). now split.
  - destruct (Core.inflight s) as [f |] eqn:Hf; [| now split].
    specialize (Hin f eq_refl).
    destruct (Core.if_rest f) as [| seg rest]; cbn [fst]; [now split |].
    inversion Hin as [| ? ? Hseg _]; subst.
    destruct (Hseg (Core.world s)) as (_ & _ & Hg & Hi & _). now split.
  - destruct (Core.inflight s) as [f |]; now split.
  - destruct (Core.inflight s) as [f |]; now split.
  - destruct (resume_abandoned_quiet (Core.abandoned s) i (Core.world s) Hab)
      as [_ Hq].
    destruct (Core.resume_abandoned i (Core.abandoned s) (Core.world s)) as [l w].
    cbn [fst snd] in *. destruct Hq as (_ & _ & Hg & Hi & _). now split.
  - cbn [fst]. unfold Core.set_world, Core.on_bot, Core.on_set_health.
    cbn [Core.world Core.bot]. destruct h; now split.
  - cbn [fst]. unfold Core.set_world, Core.on_bot, Core.on_update_attributes.
    cbn [Core.world Core.bot]. destruct attrs as [l |]; [| now split].
    destruct (id =? _); [| now split]. destruct (find _ l); now split.
  - cbn [fst]. unfold Core.set_world, Core.on_bot, Core.on_move_player.
    cbn [Core.world Core.bot]. destruct pos; [| now split].
    destruct (id =? _); now split.
  - cbn [fst]. unfold Core.set_world, Core.on_bot, Core.on_start_game.
    cbn [Core.world Core.bot]. destruct (id =? 0), pos; now split.
Qed.

Lemma inventories_app (l1 l2 : list (Core.Event * Z)) :
  inventories (l1 ++ l2) = (inventories l1 ++ inventories l2)%list.
Proof.
  induction l1 as [| [e now] l1 IH]; [reflexivity |].
  destruct e; cbn [app inventories]; now rewrite IH.
Qed.

(** X20.  In every run of the executor from its creation the stored
    inventory is the one the latest 'inventory_content' event brought, and
    the stored phase is the phase of the inventory before that event: it
    is the phase of the inventory the event before the latest brought, the
    phase of the empty inventory when there was one such event only, and
    early when there was none.  Nothing else in a run writes either of
    them. *)
Theorem phase_lags_in_every_run (now0 : Z) (es : list (Core.Event * Z)) :
  let st := Core.bot (Core.world (Core.steps (Core.new_Sys now0) es)) in
  Core.inventory st = last (inventories es) []
  /\ Core.gamePhase st
     = match inventories es with
       | [] => early
       | _ :: _ => phase_of (last (removelast (inventories es)) [])
       end.
Proof.
  induction es as [| [e now] es IH] using rev_ind; [now split |].
  cbn zeta in *. rewrite steps_app, inventories_app. cbn [Core.steps].
  pose proof (reachable_quiet now0 es) as Hq.
  set (s := Core.steps (Core.new_Sys now0) es) in *.
  destruct IH as [Hinv Hphase].
  assert (Hother : match e with Core.InventoryContent _ => False | _ => True end ->
                   inventories [(e, now)] = [] ->
                   Core.inventory (Core.bot (Core.world (fst (Core.step s e now))))
                   = last (inventories es ++ inventories [(e, now)]) []
                   /\ Core.gamePhase (Core.bot (Core.world (fst (Core.step s e now))))
                      = match (inventories es ++ inventories [(e, now)])%list with
                        | [] => early
                        | _ :: _ =>
                            phase_of
                              (last (removelast
                                       (inventories es ++ inventories [(e, now)]))
                                 [])
                        end).
  { intros He Hnone. rewrite Hnone, app_nil_r.
    destruct (step_keeps_inventory_phase s e now Hq He) as [-> ->]. now split. }
  destruct e as [p r1 r2 | | | msg | i | items | h | id attrs | pos id rot | id pos];
    try (apply Hother; [exact I | reflexivity]).
  clear Hother. cbn [inventories Core.step fst].
  rewrite last_last, removelast_last.
  split; [reflexivity |].
  replace (Core.gamePhase _) with (phase_of (Core.inventory (Core.bot (Core.world s))))
    by reflexivity.
  rewrite Hinv.
  destruct (inventories es); reflexivity.
Qed.

(** ** The phase grows with the inventory *)

Lemma existsb_incl {A : Type} (f : A -> bool) (l l' : list A) :
  incl l l' -> existsb f l = true -> existsb f l' = true.
Proof.
  intros Hi H. apply existsb_exists in H. destruct H as (a & Ha & Hf).
  apply existsb_exists. exists a. split; [now apply Hi | exact Hf].
Qed.

Lemma item_names_incl (inv inv' : list ItemStack) :
  incl inv inv' -> incl (item_names inv) (item_names inv').
Proof. intros H. unfold item_names. now apply incl_map. Qed.

(** X21.  The phase grows with the inventory, in both variants: when every
    item of one inventory is also in another, the phase of the other is
    the same or a later one.  So picking items up never sets the phase
    back. *)
Theorem phase_grows_with_inventory :
  (forall st st',
      incl (Core.inventory st) (Core.inventory st') ->
      (rank (Core.determineGamePhase st) <= rank (Core.determineGamePhase st'))%nat)
  /\ (forall st st',
      incl (Broad.inventory st) (Broad.inventory st') ->
      (rank (Broad.determineGamePhase st) <= rank (Broad.determineGamePhase st'))%nat).
Proof.
  split; intros st st' H; apply item_names_incl in H.
  - unfold Core.determineGamePhase.
    repeat match goal with
           | |- context [existsb ?f (item_names (Core.inventory st))] =>
               let E := fresh "E" in
               destruct (existsb f (item_names (Core.inventory st))) eqn:E;
               [rewrite (existsb_incl f _ _ H E) |]
           end; cbn [rank]; try lia;
      repeat match goal with
             | |- context [if ?b then _ else _] => destruct b
             end; cbn [rank]; lia.
  - unfold Broad.determineGamePhase.
    repeat match goal with
           | |- context [existsb ?f (item_names (Broad.inventory st))] =>
               let E := fresh "E" in
               destruct (existsb f (item_names (Broad.inventory st))) eqn:E;
               [rewrite (existsb_incl f _ _ H E) |]
           end; cbn [rank]; try lia;
      repeat match goal with
             | |- context [if ?b then _ else _] => destruct b
             end; cbn [rank]; lia.
Qed.

(** An iron pickaxe, and a diamond next to it. *)
Lemma phase_grows_with_inventory_witness :
  (rank (Core.determineGamePhase
           (Core.set_inventory (Core.new_BotState 0) [sample_item "iron_pickaxe"]))
   <= rank (Core.determineGamePhase
              (Core.set_inventory (Core.new_BotState 0)
                 [sample_item "diamond"; sample_item "iron_pickaxe"])))%nat.
Proof.
  apply (proj1 phase_grows_with_inventory
           (Core.set_inventory (Core.new_BotState 0) [sample_item "iron_pickaxe"])
           (Core.set_inventory (Core.new_BotState 0)
              [sample_item "diamond"; sample_item "iron_pickaxe"])).
  cbn [Core.inventory Core.set_inventory]. intros a [<- | []]. right. now left.
Defined.
